(** * Code-Generator: the resumable enumeration-and-dedup engine of [main.py]

    A shallow embedding of [src/main.py] and the properties of its
    enumeration engine.

    - Python [str] values are lists of Unicode code points; Python [int]
      values are [Z].
    - The output file is a sequence of bytes on disk, or absent; the
      text-mode handle [f] opened in append mode has a write buffer that
      reaches the disk on [f.flush()]. Only the flushes of the source are
      modelled, not those the interpreter makes when its buffer fills:
      every scan happens with the buffer empty, so they change no result.
      A line written ends with one LF byte, as on POSIX systems.
    - The report file is a second file, at another path than the output
      file; a report is the statistics snapshot handed to [write_report],
      its rendering left out, like wall-clock time, file sizes and the
      progress lines on the console.
    - [set] is stdpp's [gset], the [per_len_stats] dict is a [gmap].
    - [itertools.product] follows the pure-Python equivalent given in its
      library documentation.
    - [open(..., encoding="utf-8", errors="ignore")] is a byte-at-a-time
      UTF-8 decoder that drops every malformed subsequence, followed by
      universal-newline translation, as the text layer of the interpreter
      does it.
    - [CHARSET] is a parameter of the engine, so that it can be run on
      smaller alphabets; [rng.shuffle] is a parameter that gives the
      permutation applied at each call.
    - [KeyboardInterrupt] is delivered at the boundary of an iteration of
      the candidate loop, after a given number of candidates. *)

From Stdlib Require Import Strings.Byte Ascii String.
From stdpp Require Import gmap list numbers sorting.

Open Scope Z_scope.
Open Scope list_scope.

(** ** Python text *)

(** A code point of a Python [str], and a Python [str]. *)
Abbreviation pychar := N (only parsing).
Abbreviation pystr := (list N) (only parsing).

(** A source literal read as a [str]. *)
Definition str (s : string) : pystr :=
  map N_of_ascii (list_ascii_of_string s).

Definition LF : pychar := 10%N.
Definition CR : pychar := 13%N.

(** ** The character set (lines 10-16) *)

Definition UPPER : pystr := str "ABCDEFGHIJKLMNOPQRSTUVWXYZ".
Definition LOWER : pystr := str "abcdefghijklmnopqrstuvwxyz".
Definition DIGITS : pystr := str "123456789".
(** [string.punctuation]; the double quote is code point 34. *)
Definition SYMBOLS : pystr :=
  str "!" ++ [34%N] ++ str "#$%&'()*+,-./:;<=>?@[\]^_`{|}~".
Definition CHARSET : pystr := UPPER ++ LOWER ++ DIGITS ++ SYMBOLS.

(** ** [itertools.product] *)

Section Product.
Context {A : Type}.

(** One round of [result = [x+[y] for x in result for y in pool]]. *)
Definition product_step (result : list (list A)) (pool : list A)
  : list (list A) :=
  x ← result; y ← pool; [x ++ [y]].

(** [itertools.product] applied to the pools. *)
Definition product (pools : list (list A)) : list (list A) :=
  fold_left product_step pools [[]].

(** [itertools.product(pool, repeat=n)]: the pool is repeated [n] times. *)
Definition product_repeat (pool : list A) (n : nat) : list (list A) :=
  product (replicate n pool).

(** The same sequence, by recursion on the pools: the first pool is the
    slowest position. *)
Fixpoint product_rec (pools : list (list A)) : list (list A) :=
  match pools with
  | [] => [[]]
  | pool :: rest => y ← pool; t ← product_rec rest; [y :: t]
  end.
End Product.

(** ["".join(tup)] for a tuple of one-character strings. *)
Definition join (tup : list pychar) : pystr :=
  concat (map (fun c => [c]) tup).

(** ** Bytes and UTF-8 *)

(** The byte with value [n] (for [n < 256]). *)
Definition mk_byte (n : N) : byte :=
  match Byte.of_N n with
  | Some b => b
  | None => x00
  end.

(** [str.encode("utf-8")] of one code point; a lone surrogate cannot be
    encoded ([UnicodeEncodeError]). *)
Definition utf8_encode_char (c : pychar) : option (list byte) :=
  let cont (x : N) := mk_byte (N.lor 0x80 (N.land x 0x3F)) in
  if (c <? 0x80)%N then Some [mk_byte c]
  else if (c <? 0x800)%N then
    Some [mk_byte (N.lor 0xC0 (N.shiftr c 6)); cont c]
  else if ((0xD800 <=? c) && (c <=? 0xDFFF))%N then None
  else if (c <? 0x10000)%N then
    Some [mk_byte (N.lor 0xE0 (N.shiftr c 12)); cont (N.shiftr c 6); cont c]
  else if (c <? 0x110000)%N then
    Some [mk_byte (N.lor 0xF0 (N.shiftr c 18)); cont (N.shiftr c 12);
          cont (N.shiftr c 6); cont c]
  else None.

Fixpoint utf8_encode (s : pystr) : option (list byte) :=
  match s with
  | [] => Some []
  | c :: r =>
      match utf8_encode_char c, utf8_encode r with
      | Some bs, Some rest => Some (bs ++ rest)
      | _, _ => None
      end
  end.

(** State of the incremental decoder: between characters, or inside a
    multi-byte character with the bits read so far, the number of
    continuation bytes expected after the next one, and the range the next
    byte must lie in. *)
Inductive dstate : Type :=
| Idle
| Pending (cp : N) (more : nat) (lo hi : N).

(** A byte read between characters. Bytes that cannot start a character
    (0x80-0xC1, 0xF5-0xFF) are dropped. *)
Definition decode_start (b : N) : dstate * list pychar :=
  if (b <? 0x80)%N then (Idle, [b])
  else if ((0xC2 <=? b) && (b <=? 0xDF))%N then
    (Pending (N.land b 0x1F) 0 0x80 0xBF, [])
  else if ((0xE0 <=? b) && (b <=? 0xEF))%N then
    (Pending (N.land b 0x0F) 1
       (if (b =? 0xE0)%N then 0xA0 else 0x80)
       (if (b =? 0xED)%N then 0x9F else 0xBF), [])
  else if ((0xF0 <=? b) && (b <=? 0xF4))%N then
    (Pending (N.land b 0x07) 2
       (if (b =? 0xF0)%N then 0x90 else 0x80)
       (if (b =? 0xF4)%N then 0x8F else 0xBF), [])
  else (Idle, []).

(** One byte through the decoder with [errors="ignore"]: a byte that does
    not continue the pending character drops the bytes read for it and is
    then read afresh. *)
Definition decode_byte (st : dstate) (b : N) : dstate * list pychar :=
  match st with
  | Idle => decode_start b
  | Pending cp more lo hi =>
      if ((lo <=? b) && (b <=? hi))%N then
        let cp' := N.lor (N.shiftl cp 6) (N.land b 0x3F) in
        match more with
        | O => (Idle, [cp'])
        | S more' => (Pending cp' more' 0x80 0xBF, [])
        end
      else decode_start b
  end.

(** The rest of the stream from a decoder state; a character cut short by
    the end of the data is dropped. *)
Fixpoint decode_from (st : dstate) (data : list byte) : pystr :=
  match data with
  | [] => []
  | b :: rest =>
      let '(st', out) := decode_byte st (Byte.to_N b) in
      out ++ decode_from st' rest
  end.

(** [bytes.decode("utf-8", errors="ignore")]. *)
Definition utf8_decode_ignore (data : list byte) : pystr :=
  decode_from Idle data.

(** ** Reading a text file line by line *)

(** Universal newlines (the default [newline=None] of a file opened for
    reading): CR LF and a lone CR are read as LF. [pendingcr] tells that
    the character before was a CR, already read as LF. *)
Fixpoint translate_newlines (pendingcr : bool) (t : pystr) : pystr :=
  match t with
  | [] => []
  | c :: r =>
      if (c =? CR)%N then LF :: translate_newlines true r
      else if (c =? LF)%N && pendingcr then translate_newlines false r
      else c :: translate_newlines false r
  end.

Definition universal_newlines (t : pystr) : pystr :=
  translate_newlines false t.

(** The lines that [for line in f] yields, each with its ending LF; only
    the last line can lack one. *)
Fixpoint split_lines (t : pystr) : list pystr :=
  match t with
  | [] => []
  | c :: r =>
      if (c =? LF)%N then [c] :: split_lines r
      else match split_lines r with
           | [] => [[c]]
           | l :: ls => (c :: l) :: ls
           end
  end.

(** The lines of a file opened with
    [open("r", encoding="utf-8", errors="ignore")]. *)
Definition text_lines (data : list byte) : list pystr :=
  split_lines (universal_newlines (utf8_decode_ignore data)).

(** [s.rstrip(chars)]. *)
Fixpoint rstrip (chars s : pystr) : pystr :=
  match s with
  | [] => []
  | c :: r =>
      match rstrip chars r with
      | [] => if existsb (N.eqb c) chars then [] else [c]
      | r' => c :: r'
      end
  end.

(** [len(s)]. *)
Definition len {A} (s : list A) : Z := Z.of_nat (length s).

(** ** The existing-set scanner (lines 19-28) *)

(** Statistics of one length: a value of the [per_len_stats] dict. *)
Record PerLen : Type := mkPerLen {
  possible : Z;
  existing : Z;
  written : Z;
  failed : Z
}.

(** What [write_report] is handed: the counters of [totals] and
    [per_len_stats] (rendering, times and sizes left out). *)
Record Report : Type := mkReport {
  r_charset_size : Z;
  r_min_len : Z;
  r_max_len : Z;
  r_attempts : Z;
  r_success : Z;
  r_failed : Z;
  r_per_len : gmap Z PerLen
}.

(** The two files the program touches: the output file and the report
    file, each absent or with its contents. *)
Record FileSystem : Type := mkFS {
  out_file : option (list byte);
  report_file : option Report
}.

(** The body of [for line in f] in [scan_existing_by_len]. *)
Definition scan_line (target_len : Z) (exists_ : gset pystr) (line : pystr)
  : gset pystr :=
  let s := rstrip [LF; CR] line in
  if len s =? target_len then {[s]} ∪ exists_ else exists_.

(** [scan_existing_by_len(filepath, target_len)], where [filepath] stands
    for the file at that path: its contents, or [None] when
    [filepath.exists()] is false. The file is opened for reading only. *)
Definition scan_existing_by_len (filepath : option (list byte))
  (target_len : Z) : gset pystr :=
  match filepath with
  | Some data => fold_left (scan_line target_len) (text_lines data) ∅
  | None => ∅
  end.

(** ** The engine (lines 147-319) *)

Record Args : Type := mkArgs {
  min_len : Z;
  max_len : Z;
  flush_every : Z;
  shuffle : bool;
  report_every : Z
}.

Inductive exn : Type :=
| KeyboardInterrupt
| ZeroDivisionError
| UnicodeEncodeError.

(** The variables of [main] and the files behind them.
    [disk] is the output file as stored, [buffer] what was written through
    [f] since the last flush; [reports] lists every snapshot written to the
    report file, newest first; [rng_draws] counts the shuffles drawn from
    [rng]; [sigint] is the number of candidates after which Ctrl+C
    arrives, if it does. *)
Record State : Type := mkState {
  disk : list byte;
  buffer : list byte;
  reports : list Report;
  total_attempts : Z;
  total_written : Z;
  total_failed : Z;
  per_len_stats : gmap Z PerLen;
  have : gset pystr;
  written_since_last_report : Z;
  last_flush_written : Z;
  rng_draws : nat;
  sigint : option nat
}.

(** [for x in xs: body], left at the first exception. *)
Fixpoint for_each {S A : Type} (body : S -> A -> S * option exn)
  (xs : list A) (s : S) : S * option exn :=
  match xs with
  | [] => (s, None)
  | x :: rest =>
      match body s x with
      | (s', None) => for_each body rest s'
      | (s', Some e) => (s', Some e)
      end
  end.

(** [range(a, b)]. *)
Definition range (a b : Z) : list Z := seqZ a (b - a).

Definition tick (st : State) : State :=
  mkState (disk st) (buffer st) (reports st) (total_attempts st)
    (total_written st) (total_failed st) (per_len_stats st) (have st)
    (written_since_last_report st) (last_flush_written st) (rng_draws st)
    (Nat.pred <$> sigint st).

(** [total_attempts += 1] *)
Definition count_attempt (st : State) : State :=
  mkState (disk st) (buffer st) (reports st) (total_attempts st + 1)
    (total_written st) (total_failed st) (per_len_stats st) (have st)
    (written_since_last_report st) (last_flush_written st) (rng_draws st)
    (sigint st).

Definition bump_failed (p : PerLen) : PerLen :=
  mkPerLen (possible p) (existing p) (written p) (failed p + 1).

Definition bump_written (p : PerLen) : PerLen :=
  mkPerLen (possible p) (existing p + 1) (written p + 1) (failed p).

(** [total_failed += 1; per_len_stats[L]["failed"] += 1] *)
Definition count_failed (L : Z) (st : State) : State :=
  mkState (disk st) (buffer st) (reports st) (total_attempts st)
    (total_written st) (total_failed st + 1)
    (alter bump_failed L (per_len_stats st)) (have st)
    (written_since_last_report st) (last_flush_written st) (rng_draws st)
    (sigint st).

(** [f.write(...)] of encoded text; [have.add(s)]; [total_written += 1];
    [per_len_stats[L]["written"] += 1; per_len_stats[L]["existing"] += 1];
    [written_since_last_report += 1] *)
Definition record_write (L : Z) (s : pystr) (data : list byte) (st : State)
  : State :=
  mkState (disk st) (buffer st ++ data) (reports st) (total_attempts st)
    (total_written st + 1) (total_failed st)
    (alter bump_written L (per_len_stats st)) ({[s]} ∪ have st)
    (written_since_last_report st + 1) (last_flush_written st)
    (rng_draws st) (sigint st).

(** [f.flush(); os.fsync(f.fileno())] *)
Definition fsync (st : State) : State :=
  mkState (disk st ++ buffer st) [] (reports st) (total_attempts st)
    (total_written st) (total_failed st) (per_len_stats st) (have st)
    (written_since_last_report st) (last_flush_written st) (rng_draws st)
    (sigint st).

(** [last_flush_written = total_written] *)
Definition note_flush (st : State) : State :=
  mkState (disk st) (buffer st) (reports st) (total_attempts st)
    (total_written st) (total_failed st) (per_len_stats st) (have st)
    (written_since_last_report st) (total_written st) (rng_draws st)
    (sigint st).

(** [written_since_last_report = 0] *)
Definition reset_report_count (st : State) : State :=
  mkState (disk st) (buffer st) (reports st) (total_attempts st)
    (total_written st) (total_failed st) (per_len_stats st) (have st)
    0 (last_flush_written st) (rng_draws st) (sigint st).

(** The [totals] dict and [per_len_stats] as they stand. *)
Definition snapshot (charset_size : Z) (args : Args) (st : State) : Report :=
  mkReport charset_size (min_len args) (max_len args) (total_attempts st)
    (total_written st) (total_failed st) (per_len_stats st).

(** [write_report(report_path, args.report_format, totals, per_len_stats)] *)
Definition write_report (charset_size : Z) (args : Args) (st : State)
  : State :=
  mkState (disk st) (buffer st)
    (snapshot charset_size args st :: reports st) (total_attempts st)
    (total_written st) (total_failed st) (per_len_stats st) (have st)
    (written_since_last_report st) (last_flush_written st) (rng_draws st)
    (sigint st).

(** How the process ends. *)
Inductive Exit : Type :=
| Returned
| SystemExit (code : Z)
| Uncaught (e : exn).

Definition exit_code (x : Exit) : Z :=
  match x with
  | Returned => 0
  | SystemExit code => code
  | Uncaught _ => 1
  end.

(** What a call of [main] leaves behind: exit status, lines printed to
    [sys.stderr], the two files, and the variables of the run when it got
    past validation. *)
Record Result : Type := mkResult {
  status : Exit;
  stderr : list string;
  fs_after : FileSystem;
  run : option State
}.

(** The contents of the output file once [out_path.open("a")] has run:
    what it had, or nothing when it was absent. *)
Definition initial_file (fs : FileSystem) : list byte :=
  default [] (out_file fs).

Section Engine.
(** The module constant [CHARSET], and the permutation that the [k]-th
    call of [rng.shuffle] applies. *)
Variable charset : pystr.
Variable rng : nat -> list pychar -> list pychar.
Variable args : Args.

(** Lines 226-265: one iteration of [for tup in iter_product]. *)
Definition candidate_body (L : Z) (st : State) (tup : list pychar)
  : State * option exn :=
  match sigint st with
  | Some O => (st, Some KeyboardInterrupt)
  | _ =>
      let st := count_attempt (tick st) in
      let s := join tup in
      if bool_decide (s ∈ have st) then (count_failed L st, None)
      else
        match utf8_encode (s ++ [LF]) with
        | None => (st, Some UnicodeEncodeError)
        | Some data =>
            let st := record_write L s data st in
            if flush_every args =? 0 then (st, Some ZeroDivisionError)
            else
              let st :=
                if total_written st mod flush_every args =? 0
                then note_flush (fsync st) else st in
              let st :=
                if report_every args <=? written_since_last_report st
                then write_report (len charset) args (reset_report_count st)
                else st in
              (st, None)
        end
  end.

(** Lines 199-206 and 221-222: the scan of the output file, the new
    entry of [per_len_stats], and the loop variables reset. *)
Definition start_length (L : Z) (st : State) : State :=
  let have := scan_existing_by_len (Some (disk st)) L in
  let possible := len charset ^ L in
  mkState (disk st) (buffer st) (reports st) (total_attempts st)
    (total_written st) (total_failed st)
    (<[L := mkPerLen possible (Z.of_nat (size have)) 0 0]> (per_len_stats st))
    have 0 0 (rng_draws st) (sigint st).

(** Lines 211-215: one shuffled copy of the character set per position. *)
Fixpoint draw_per_pos (n draws : nat) : list (list pychar) :=
  match n with
  | O => []
  | S n' => rng draws charset :: draw_per_pos n' (S draws)
  end.

(** Lines 210-218: the candidates of length [L], in the order visited. *)
Definition iter_product (L : Z) (st : State) : list (list pychar) :=
  if shuffle args
  then product (draw_per_pos (Z.to_nat L) (rng_draws st))
  else product_repeat charset (Z.to_nat L).

Definition after_draws (L : Z) (st : State) : State :=
  mkState (disk st) (buffer st) (reports st) (total_attempts st)
    (total_written st) (total_failed st) (per_len_stats st) (have st)
    (written_since_last_report st) (last_flush_written st)
    (if shuffle args then (rng_draws st + Z.to_nat L)%nat else rng_draws st)
    (sigint st).

(** Lines 268-291: the flush and the report that end a length. *)
Definition finish_length (st : State) : State :=
  let st :=
    if bool_decide (total_written st ≠ last_flush_written st)
    then fsync st else st in
  write_report (len charset) args st.

(** Lines 198-291: the body of [for L in range(...)]. *)
Definition length_body (st : State) (L : Z) : State * option exn :=
  let st := start_length L st in
  let cands := iter_product L st in
  match for_each (candidate_body L) cands (after_draws L st) with
  | (st, None) => (finish_length st, None)
  | (st, Some e) => (st, Some e)
  end.

(** Lines 179-194: the output file opened for appending (created when
    absent) and the counters at zero. *)
Definition initial_state (intr : option nat) (fs : FileSystem) : State :=
  mkState (initial_file fs) [] [] 0 0 0 ∅ ∅ 0 0 0%nat intr.

(** Lines 296-316: the [finally] block. *)
Definition finally (st : State) : State :=
  write_report (len charset) args (fsync st).

Definition invalid_msg : string :=
  "Panjang tidak valid. Pastikan 1 <= min <= max.".

(** [main()], with Ctrl+C arriving after [intr] candidates (never, for
    [None]) and the files as [fs] finds them. *)
Definition main (intr : option nat) (fs : FileSystem) : Result :=
  if (min_len args <? 1) || (max_len args <? min_len args) then
    mkResult (SystemExit 1) [invalid_msg] fs None
  else
    let '(st, e) :=
      for_each length_body (range (min_len args) (max_len args + 1))
        (initial_state intr fs) in
    let st := finally st in
    mkResult
      match e with
      | None | Some KeyboardInterrupt => Returned
      | Some e => Uncaught e
      end
      []
      (mkFS (Some (disk st)) (head (reports st)))
      (Some st).
End Engine.

(** ** Notions used to state the properties *)

(** The lines of the output file, as the scanner reads them: ending
    newline and carriage-return characters stripped. *)
Definition file_lines (data : list byte) : list pystr :=
  rstrip [LF; CR] <$> text_lines data.

(** A character that is one byte in UTF-8 and is neither LF nor CR. *)
Definition plain (c : pychar) : bool :=
  (c <? 128)%N && negb (c =? LF)%N && negb (c =? CR)%N.

(** The bytes that [f.write(s + LF)] appends for a string of plain
    characters, and those of a sequence of such writes. *)
Definition encode_line (s : pystr) : list byte := mk_byte <$> (s ++ [LF]).

Definition encode_lines (lines : list pystr) : list byte :=
  lines ≫= encode_line.

(** A file that is empty or ends with a newline byte. *)
Definition terminated (data : list byte) : bool :=
  match last data with
  | Some b => Byte.eqb b x0a
  | None => true
  end.

(** The decoder state after some bytes. *)
Definition decode_state (st : dstate) (data : list byte) : dstate :=
  fold_left (λ s b, fst (decode_byte s (Byte.to_N b))) data st.

(** The decoder states that occur: a continuation byte is never below
    0x80. *)
Definition dstate_ok (st : dstate) : Prop :=
  match st with
  | Idle => True
  | Pending _ _ lo _ => (0x80 ≤ lo)%N
  end.

(** A text that is empty or ends with LF. *)
Definition lf_terminated (t : pystr) : Prop :=
  match last t with
  | Some c => c = LF
  | None => True
  end.

(** Whether a CR is pending after the text [t]. *)
Definition pending_after (pendingcr : bool) (t : pystr) : bool :=
  match last t with
  | Some c => (c =? CR)%N
  | None => pendingcr
  end.

(** The [n] digits of [k] in base [base], most significant first. *)
Fixpoint digits (base n k : nat) : list nat :=
  match n with
  | O => []
  | S n' => (k / base ^ n')%nat :: digits base n' (k mod base ^ n')%nat
  end.

(** All the strings of length [L] over the character set, in the order of
    the ordered mode. *)
Definition all_strings (charset : pystr) (L : Z) : list pystr :=
  product_rec (replicate (Z.to_nat L) charset).




(** The lines of length [L] of a file. *)
Definition lines_of_len (L : Z) (data : list byte) : list pystr :=
  filter (λ s, len s = L) (file_lines data).

Section Invariants.
(** The character set, and the output file as the run finds it. *)
Variable charset : pystr.
Variable F0 : list byte.

(** A string that is a line of the file: one that was there at the
    start, or one of the lines [W] written since. *)
Definition seen (W : list pystr) (s : pystr) : Prop :=
  s ∈ file_lines F0 ∨ s ∈ W.

(** The entry of [per_len_stats] for length [L], when the candidates
    [pre], a prefix of all the candidates [cands] of that length, have
    been attempted and the lines [W] written. *)
Record entry_with (W : list pystr) (L : Z) (p : PerLen)
    (pre cands : list pystr) : Prop := mkEntry {
  ew_len : 0 ≤ L;
  ew_possible : possible p = len charset ^ L;
  ew_existing :
    existing p
    = Z.of_nat (size (scan_existing_by_len (Some F0) L)) + written p;
  ew_written : written p = len (filter (λ s, len s = L) W);
  ew_failed : 0 ≤ failed p;
  ew_prefix : pre `prefix_of` cands;
  ew_cands : cands ≡ₚ all_strings charset L;
  ew_attempts : written p + failed p = len pre;
  ew_seen : ∀ t, t ∈ pre → seen W t
}.

Definition entry_ok (W : list pystr) (L : Z) (p : PerLen) : Prop :=
  ∃ pre cands, entry_with W L p pre cands.

(** The output file and the write counter, when the lines [W] have been
    written. *)
Record Linked (W : list pystr) (st : State) : Prop := mkLinked {
  lk_file : disk st ++ buffer st = F0 ++ encode_lines W;
  lk_nodup : NoDup W;
  lk_fresh : ∀ s, s ∈ W → s ∉ file_lines F0;
  lk_strings :
    ∀ s, s ∈ W →
      Forall (λ c, c ∈ charset) s ∧ is_Some (per_len_stats st !! len s);
  lk_count : total_written st = len W;
  lk_flush_le : 0 ≤ last_flush_written st ≤ total_written st;
  lk_flush : buffer st = [] ∨ last_flush_written st < total_written st
}.

(** The state between two iterations of the candidate loop of length
    [L], with [pre] the candidates done; [m0] is [per_len_stats] as the
    loop found it. *)
Record Inner (L : Z) (m0 : gmap Z PerLen) (cands pre : list pystr)
    (W : list pystr) (st : State) : Prop := mkInner {
  in_linked : Linked W st;
  in_have : ∀ s, s ∈ have st ↔ seen W s ∧ len s = L;
  in_others : ∀ L', L' ≠ L → per_len_stats st !! L' = m0 !! L';
  in_older : ∀ L' p, L' ≠ L → m0 !! L' = Some p → entry_ok W L' p;
  in_entry :
    ∃ p, per_len_stats st !! L = Some p ∧ entry_with W L p pre cands ∧
         existing p = Z.of_nat (size (have st))
}.

(** The state whenever the run can end. *)
Record Sound (W : list pystr) (st : State) : Prop := mkSound {
  sd_linked : Linked W st;
  sd_entries : ∀ L p, per_len_stats st !! L = Some p → entry_ok W L p
}.

(** The state between two lengths, with the lengths [done] completed. *)
Record Outer (done : list Z) (W : list pystr) (st : State)
  : Prop := mkOuter {
  ou_sound : Sound W st;
  ou_flushed : buffer st = [];
  ou_dom : dom (per_len_stats st) = list_to_set done;
  ou_complete :
    ∀ L, L ∈ done →
      ∃ p, per_len_stats st !! L = Some p ∧
           written p + failed p = possible p;
  ou_have :
    ∀ L, last done = Some L → ∀ s, s ∈ have st ↔ seen W s ∧ len s = L
}.
End Invariants.

(** The lengths a run goes through, and every candidate of a run. *)
Definition lengths (args : Args) : list Z :=
  range (min_len args) (max_len args + 1).

Definition all_candidates (charset : pystr) (args : Args) : list pystr :=
  lengths args ≫= all_strings charset.

(** The loop over the lengths, as [main] runs it. *)
Definition engine (charset : pystr) (rng : nat → list pychar → list pychar)
    (args : Args) (intr : option nat) (fs : FileSystem)
  : State * option exn :=
  for_each (length_body charset rng args) (lengths args)
    (initial_state intr fs).

(** A run that goes through all its lengths: neither Ctrl+C nor an
    exception leaves the loop. *)
Definition uninterrupted (charset : pystr)
    (rng : nat → list pychar → list pychar) (args : Args)
    (intr : option nat) (fs : FileSystem) : Prop :=
  (engine charset rng args intr fs).2 = None.

(** Length bounds that pass the check of lines 163-165. *)
Definition valid_bounds (args : Args) : Prop :=
  1 ≤ min_len args ≤ max_len args.

(** The lines of the output file after a run. *)
Definition out_lines (r : Result) : list pystr :=
  from_option file_lines [] (out_file (fs_after r)).


(** What an exception says when a loop ends with it: it is a division by
    zero only when the flush interval is 0, and with interval 0 any other
    ending means that nothing was written. *)
Definition flush_outcome (args : Args) (e : exn) (st : State) : Prop :=
  (flush_every args ≠ 0 → e ≠ ZeroDivisionError) ∧
  (flush_every args = 0 → e ≠ ZeroDivisionError → total_written st = 0).

(** With interval 0, a loop that goes on has written nothing. *)
Definition unwritten (args : Args) (st : State) : Prop :=
  flush_every args = 0 → total_written st = 0.

(** ** Further notions *)

(** The ways a line of a text file ends: LF, CR LF, or a lone CR. *)
Inductive ending : Type :=
| EndLF
| EndCRLF
| EndCR.

Definition ending_chars (e : ending) : pystr :=
  match e with
  | EndLF => [LF]
  | EndCRLF => [CR; LF]
  | EndCR => [CR]
  end.

(** The text and the bytes of a file given by its lines, each with its
    ending. *)
Definition text_of_rows (rows : list (list N * ending)) : pystr :=
  rows ≫= λ row, row.1 ++ ending_chars row.2.

Definition encode_rows (rows : list (list N * ending)) : list byte :=
  mk_byte <$> text_of_rows rows.

Section Visiting.
Variable charset : pystr.
Variable rng : nat → list pychar → list pychar.
Variable args : Args.







End Visiting.




(** The success count of the report file as it stands; 0 when no report
    was written yet. *)
Definition reported (st : State) : Z :=
  from_option r_success 0 (head (reports st)).


(** The text of lines written one after the other with [f.write(s + LF)]. *)
Definition text_of_lines (B : list pystr) : pystr :=
  B ≫= λ s, s ++ [LF].


(** A code point that UTF-8 can encode: below 0x110000 and no
    surrogate. *)
Definition encodable (c : pychar) : bool :=
  (c <? 0x110000)%N && negb ((0xD800 <=? c) && (c <=? 0xDFFF))%N.

From Stdlib Require DecimalString DecimalN DecimalPos.

(** ** Numbers as text (lines 30-48) *)

(** [str(n)] for an [int] that is not negative, and for any [int]
    (interpreters that limit the digits of [str] raise instead beyond
    4300 digits; the statements stay below that). *)
Definition decimal (n : N) : pystr :=
  str (DecimalString.NilZero.string_of_uint (N.to_uint n)).

Definition str_int (n : Z) : pystr :=
  (if n <? 0 then str "-" else []) ++ decimal (Z.abs_N n).

(** The nearest integer to [num / den], ties to even. *)
Definition round_half_even (num den : Z) : Z :=
  let q := num / den in
  let r := num mod den in
  if (den <? 2 * r) || ((2 * r =? den) && Z.odd q) then q + 1 else q.

(** [float(n)] for an [int]: the nearest double, ties to even, given as
    the integer it is; [None] stands for [OverflowError]. A double has 53
    significant bits and is below [2 ** 1024]. *)
Definition float_of_int (n : Z) : option Z :=
  let a := Z.abs n in
  let sh := Z.log2 a + 1 - 53 in
  if sh <=? 0 then Some n
  else
    let v := round_half_even a (2 ^ sh) * 2 ^ sh in
    if 2 ^ 1024 <=? v then None else Some (Z.sgn n * v).

Definition COMMA : pychar := 44%N.

(** The thousands separators of the format option [,]: [digits] has the
    least significant digit first, [k] counts the digits since the last
    comma. *)
Fixpoint group_rev (k : nat) (digits : pystr) : pystr :=
  match digits with
  | [] => []
  | d :: rest =>
      if (k =? 3)%nat then COMMA :: d :: group_rev 1 rest
      else d :: group_rev (S k) rest
  end.

Definition group3 (digits : pystr) : pystr :=
  reverse (group_rev 0 (reverse digits)).

(** [f"{x:,.0f}"] for a double [x] with the integer value [v]. *)
Definition format_comma_0f (v : Z) : pystr :=
  (if v <? 0 then str "-" else []) ++ group3 (decimal (Z.abs_N v)).

(** [human(n)] (lines 30-35) for an [int]: the format converts it with
    [float()], and [OverflowError] leads to [str(n)]. *)
Definition human (n : Z) : pystr :=
  match float_of_int n with
  | Some v => format_comma_0f v
  | None => str_int n
  end.

(** A decimal digit. *)
Definition is_digit (c : pychar) : Prop := (48 ≤ c ≤ 57)%N.

(** [units] of [file_size]. *)
Definition UNITS : list pystr :=
  [str "B"; str "KB"; str "MB"; str "GB"; str "TB"].

(** The loop [while v >= 1024 and i < len(units) - 1] of [file_size],
    with [v] the fraction [num / den]: dividing a double of at least
    1024 by 1024 is exact. [fuel] is [len(units) - 1 - i]. *)
Fixpoint size_loop (fuel : nat) (num den : Z) (i : nat) : Z * nat :=
  match fuel with
  | O => (den, i)
  | S fuel' =>
      if 1024 * den <=? num then size_loop fuel' num (1024 * den) (S i)
      else (den, i)
  end.

(** [f"{v:.2f}"] for the fraction [num / den], not negative: the nearest
    multiple of 0.01, ties to even. *)
Definition format_2f (num den : Z) : pystr :=
  let h := round_half_even (100 * num) den in
  decimal (Z.to_N (h / 100)) ++ str "."
  ++ decimal (Z.to_N (h mod 100 / 10)) ++ decimal (Z.to_N (h mod 10)).

(** [file_size(path)] (lines 37-48), given [st_size] or [None] when the
    file is missing; [None] as a result stands for the [OverflowError]
    of [float(sz)]. *)
Definition file_size (st_size : option Z) : option pystr :=
  match st_size with
  | None => Some (str "0 B")
  | Some sz =>
      match float_of_int sz with
      | None => None
      | Some v =>
          let '(den, i) := size_loop 4 v 1 0 in
          Some (format_2f v den ++ str " " ++ default [] (UNITS !! i))
      end
  end.

(** ** The per-length table of the report (lines 69-71 and 84-90) *)

(** The default of [per_len.get(L, ...)]. *)
Definition no_stats : PerLen := mkPerLen 0 0 0 0.

(** The rows of the table in both report formats: one for each length of
    the range, with the entry of [per_len_stats] or the default. *)
Definition report_rows (rep : Report) : list (Z * PerLen) :=
  (λ L, (L, default no_stats (r_per_len rep !! L)))
    <$> range (r_min_len rep) (r_max_len rep + 1).


(** * Properties *)

(** ** The sequence generator *)

Lemma bind_ret_fmap {A B} (f : A → B) (l : list A) :
  (x ← l; [f x]) = f <$> l.
Proof. induction l as [|x l IH]; csimpl; [done|by rewrite IH]. Qed.

Lemma bind_Permutation_ext {A B} (f g : A → list B) (l k : list A) :
  (∀ x, f x ≡ₚ g x) → l ≡ₚ k → l ≫= f ≡ₚ k ≫= g.
Proof.
  intros Hfg Hlk. rewrite <- Hlk. clear k Hlk.
  induction l as [|x l IH]; csimpl; [done|]. by rewrite Hfg, IH.
Qed.

Lemma length_bind_uniform {A B} (f : A → list B) (l : list A) (m : nat) :
  (∀ x, length (f x) = m) → length (l ≫= f) = (length l * m)%nat.
Proof.
  intros Hf. induction l as [|x l IH]; [done|].
  rewrite bind_cons, length_app, Hf, IH. done.
Qed.

Section ProductFacts.
Context {A : Type}.
Implicit Types (pool : list A) (pools : list (list A)) (t : list A).

Lemma product_rec_cons pool pools :
  product_rec (pool :: pools) = y ← pool; cons y <$> product_rec pools.
Proof.
  simpl. apply list_bind_ext; [|done]. intros y. apply bind_ret_fmap.
Qed.

Lemma product_fold pools (acc : list (list A)) :
  fold_left product_step pools acc = x ← acc; app x <$> product_rec pools.
Proof.
  revert acc. induction pools as [|pool pools IH]; intros acc.
  - simpl. induction acc as [|x acc IHa]; csimpl; [done|].
    by rewrite app_nil_r, <- IHa.
  - cbn [fold_left]. rewrite IH. unfold product_step.
    induction acc as [|x acc IHa]; [done|].
    rewrite !bind_cons, bind_app, IHa. f_equal.
    rewrite product_rec_cons. clear.
    induction pool as [|y pool IHp]; [done|].
    rewrite !bind_cons, bind_app, fmap_app, IHp. f_equal.
    csimpl. rewrite app_nil_r, <- list_fmap_compose.
    apply list_fmap_ext. intros _ t _. simpl. by rewrite <- app_assoc.
Qed.

Lemma product_eq_rec pools : product pools = product_rec pools.
Proof.
  unfold product. rewrite product_fold. csimpl.
  rewrite app_nil_r. induction (product_rec pools); csimpl; by f_equal.
Qed.

Lemma elem_of_product_rec t pools :
  t ∈ product_rec pools ↔ Forall2 (λ c pool, c ∈ pool) t pools.
Proof.
  revert t. induction pools as [|pool pools IH]; intros t.
  - simpl. rewrite list_elem_of_singleton. split.
    + intros ->. constructor.
    + by intros ->%Forall2_nil_inv_r.
  - rewrite product_rec_cons, list_elem_of_bind. split.
    + intros (y & Ht & Hy). apply list_elem_of_fmap in Ht as (t' & -> & Ht').
      constructor; [done|]. by apply IH.
    + intros (c & t' & Hc & Ht' & ->)%Forall2_cons_inv_r.
      exists c. split; [|done]. apply list_elem_of_fmap. exists t'.
      split; [done|]. by apply IH.
Qed.

Lemma NoDup_product_rec pools :
  Forall NoDup pools → NoDup (product_rec pools).
Proof.
  induction 1 as [|pool pools Hp _ IH].
  - simpl. apply NoDup_singleton.
  - rewrite product_rec_cons. apply NoDup_bind; [| |done].
    + intros y1 y2 t _ _ (t1 & -> & _)%list_elem_of_fmap
        (t2 & [= -> _] & _)%list_elem_of_fmap. done.
    + intros y _. apply NoDup_fmap_2; [|done]. by intros ?? [= ->].
Qed.

Lemma product_rec_Permutation pools pools' :
  Forall2 (≡ₚ) pools pools' → product_rec pools ≡ₚ product_rec pools'.
Proof.
  induction 1 as [|pool pool' pools pools' Hp _ IH]; [done|].
  rewrite !product_rec_cons. apply bind_Permutation_ext; [|done].
  intros y. by rewrite IH.
Qed.

Lemma length_product_rec_replicate pool n :
  length (product_rec (replicate n pool)) = (length pool ^ n)%nat.
Proof.
  induction n as [|n IH]; [done|].
  cbn [replicate]. rewrite product_rec_cons, Nat.pow_succ_r'.
  apply length_bind_uniform. intros y. by rewrite length_fmap.
Qed.
End ProductFacts.

Lemma lookup_bind_uniform {A B} (f : A → list B) (l : list A) (m k : nat) :
  (∀ x, length (f x) = m) → (0 < m)%nat →
  (l ≫= f) !! k = l !! (k / m)%nat ≫= λ x, f x !! (k mod m)%nat.
Proof.
  intros Hf Hm. revert k. induction l as [|x l IH]; intros k; [done|].
  rewrite bind_cons. destruct (decide (k < m)%nat) as [Hk|Hk].
  - rewrite lookup_app_l by (by rewrite Hf).
    rewrite Nat.div_small, Nat.mod_small by done. done.
  - rewrite lookup_app_r by (rewrite Hf; lia). rewrite Hf, IH.
    assert (k `div` m = S ((k - m) `div` m))%nat as ->.
    { replace k with ((k - m) + 1 * m)%nat at 1 by lia.
      rewrite Nat.div_add by lia. lia. }
    assert (k `mod` m = (k - m) `mod` m)%nat as ->; [|done].
    replace k with ((k - m) + 1 * m)%nat at 1 by lia.
    by rewrite Nat.Div0.mod_add.
Qed.

Lemma product_rec_odometer {A} (pool : list A) (n k : nat) (t : list A) :
  product_rec (replicate n pool) !! k = Some t →
  Forall2 (λ c d, pool !! d = Some c) t (digits (length pool) n k).
Proof.
  revert k t. induction n as [|n IH]; intros k t.
  - simpl. intros [-> <-]%list_lookup_singleton_Some. constructor.
  - cbn [replicate digits]. rewrite product_rec_cons.
    destruct (decide (length pool = 0)%nat) as [Hnil|Hpool].
    { destruct pool; [done|discriminate]. }
    rewrite (lookup_bind_uniform _ _ (length pool ^ n)); cycle 1.
    { intros y. by rewrite length_fmap, length_product_rec_replicate. }
    { by apply Nat.neq_0_lt_0, Nat.pow_nonzero. }
    intros (y & Hy & Ht)%bind_Some.
    apply list_lookup_fmap_Some in Ht as (t' & -> & Ht').
    constructor; [done|]. by apply IH.
Qed.

(** ** The text layer *)

(** *** Bytes *)

Lemma to_N_mk_byte (n : N) : (n < 256)%N → Byte.to_N (mk_byte n) = n.
Proof.
  intros Hn. unfold mk_byte. destruct (Byte.of_N n) as [b|] eqn:Hb.
  - by apply Byte.to_of_N.
  - apply Byte.of_N_None_iff in Hb. lia.
Qed.

Lemma plain_spec (c : pychar) :
  plain c ↔ (c < 128)%N ∧ c ≠ LF ∧ c ≠ CR.
Proof.
  unfold plain.
  destruct (N.ltb_spec c 128), (N.eqb_spec c LF), (N.eqb_spec c CR);
    simpl; split; try done; try lia; intros (? & ? & ?); try done; lia.
Qed.

Lemma decode_start_ok (b : N) : dstate_ok (fst (decode_start b)).
Proof.
  unfold decode_start.
  repeat (case_match; simpl; try done); lia.
Qed.

Lemma decode_byte_ok (st : dstate) (b : N) : dstate_ok (fst (decode_byte st b)).
Proof.
  destruct st as [|cp more lo hi]; simpl; [apply decode_start_ok|].
  case_match; [|apply decode_start_ok]. destruct more; simpl; [done|lia].
Qed.

Lemma decode_byte_ascii (st : dstate) (b : N) :
  dstate_ok st → (b < 128)%N → decode_byte st b = (Idle, [b]).
Proof.
  intros Hok Hb.
  assert (decode_start b = (Idle, [b])) as Hs.
  { unfold decode_start. by rewrite (proj2 (N.ltb_lt _ _) Hb). }
  destruct st as [|cp more lo hi]; simpl in *; [done|].
  case_match eqn:Hr; [|done].
  apply andb_prop in Hr as [?%N.leb_le _]. lia.
Qed.

Lemma decode_from_app (st : dstate) (d1 d2 : list byte) :
  decode_from st (d1 ++ d2)
  = decode_from st d1 ++ decode_from (decode_state st d1) d2.
Proof.
  revert st. induction d1 as [|b d1 IH]; intros st; [done|].
  simpl. destruct (decode_byte st (Byte.to_N b)) as [st' out] eqn:Hb.
  by rewrite IH, <- app_assoc.
Qed.

Lemma decode_state_ok (st : dstate) (data : list byte) :
  dstate_ok st → dstate_ok (decode_state st data).
Proof.
  revert st. induction data as [|b data IH]; intros st Hok; [done|].
  apply IH, decode_byte_ok.
Qed.

Lemma decode_state_app (st : dstate) (d1 d2 : list byte) :
  decode_state st (d1 ++ d2) = decode_state (decode_state st d1) d2.
Proof. apply fold_left_app. Qed.

Lemma terminated_inv (data : list byte) :
  terminated data → data = [] ∨ ∃ d, data = d ++ [x0a].
Proof.
  unfold terminated. destruct (last data) as [b|] eqn:Hl.
  - intros Hb%Is_true_true%Byte.byte_dec_bl. subst b.
    apply last_Some in Hl. by right.
  - intros _. left. by apply last_None.
Qed.

Lemma terminated_snoc (data : list byte) : terminated (data ++ [x0a]).
Proof. unfold terminated. by rewrite last_snoc. Qed.

Lemma decode_terminated (data : list byte) :
  terminated data →
  decode_state Idle data = Idle ∧ lf_terminated (decode_from Idle data).
Proof.
  intros [->|[d ->]]%terminated_inv; [done|].
  rewrite decode_state_app, decode_from_app.
  pose proof (decode_state_ok Idle d I) as Hok.
  unfold decode_state at 1. simpl.
  rewrite (decode_byte_ascii _ 10%N Hok) by done. simpl. split; [done|].
  unfold lf_terminated. by rewrite last_snoc.
Qed.

Lemma decode_ascii (s : pystr) :
  Forall (λ c, (c < 128)%N) s →
  decode_from Idle (mk_byte <$> s) = s ∧ decode_state Idle (mk_byte <$> s) = Idle.
Proof.
  induction 1 as [|c s Hc _ [IH1 IH2]]; [done|].
  unfold decode_state in *. cbn [fmap list_fmap decode_from fold_left].
  rewrite to_N_mk_byte by lia.
  rewrite (decode_byte_ascii Idle c I Hc). simpl. by rewrite IH1.
Qed.

Lemma utf8_encode_ascii (s : pystr) :
  Forall (λ c, (c < 128)%N) s → utf8_encode s = Some (mk_byte <$> s).
Proof.
  induction 1 as [|c s Hc _ IH]; [done|].
  simpl. unfold utf8_encode_char.
  rewrite (proj2 (N.ltb_lt _ _) Hc), IH. done.
Qed.

(** *** Newlines and lines *)

Lemma translate_newlines_app (f : bool) (t u : pystr) :
  translate_newlines f (t ++ u)
  = translate_newlines f t ++ translate_newlines (pending_after f t) u.
Proof.
  revert f. induction t as [|c r IH]; intros f; [done|].
  assert (pending_after f (c :: r) = pending_after (c =? CR)%N r) as Hp.
  { unfold pending_after. destruct r as [|d r']; [done|]. simpl.
    destruct (last (d :: r')) eqn:Hl; [done|]. by apply last_None in Hl. }
  simpl. rewrite Hp. destruct (c =? CR)%N eqn:Hc.
  - simpl. by rewrite IH.
  - destruct ((c =? LF)%N && f); simpl; by rewrite IH.
Qed.

Lemma translate_newlines_id (s : pystr) :
  Forall (λ c, c ≠ CR) s → translate_newlines false s = s.
Proof.
  induction 1 as [|c s Hc _ IH]; [done|].
  simpl. apply N.eqb_neq in Hc. rewrite Hc, andb_false_r. by rewrite IH.
Qed.

Lemma translate_newlines_terminated (t : pystr) :
  lf_terminated t → lf_terminated (translate_newlines false t).
Proof.
  unfold lf_terminated at 1. destruct (last t) as [c|] eqn:Hl.
  - intros ->. apply last_Some in Hl as [t0 ->].
    rewrite translate_newlines_app. simpl.
    unfold pending_after. destruct (last t0) as [d|] eqn:Hd.
    + apply last_Some in Hd as [t1 ->]. destruct (d =? CR)%N eqn:Hcr.
      * apply N.eqb_eq in Hcr as ->. simpl. rewrite app_nil_r.
        rewrite translate_newlines_app. simpl.
        unfold lf_terminated. by rewrite last_snoc.
      * simpl. unfold lf_terminated. by rewrite last_snoc.
    + simpl. unfold lf_terminated. by rewrite last_snoc.
  - intros _. apply last_None in Hl as ->. done.
Qed.

Lemma lf_terminated_pending (t : pystr) :
  lf_terminated t → pending_after false t = false.
Proof.
  unfold lf_terminated, pending_after. destruct (last t); [|done]. by intros ->.
Qed.

Lemma split_lines_nil (t : pystr) : split_lines t = [] → t = [].
Proof.
  destruct t as [|c r]; [done|]. simpl.
  destruct (c =? LF)%N; [done|]. by destruct (split_lines r).
Qed.

Lemma split_lines_app (t u : pystr) :
  lf_terminated t → split_lines (t ++ u) = split_lines t ++ split_lines u.
Proof.
  induction t as [|c r IH]; [done|]. intros Ht.
  assert (r ≠ [] → lf_terminated r) as Hr.
  { intros Hne. unfold lf_terminated in *. destruct r; [done|].
    by rewrite last_cons_cons in Ht. }
  simpl. destruct (c =? LF)%N eqn:Hc.
  - destruct r as [|d r']; [done|]. rewrite IH; [done|]. by apply Hr.
  - destruct r as [|d r'].
    { unfold lf_terminated in Ht. simpl in Ht. subst c. done. }
    rewrite IH by (by apply Hr).
    destruct (split_lines (d :: r')) eqn:Hs; [|done].
    by apply split_lines_nil in Hs.
Qed.

Lemma split_lines_one (s : pystr) :
  Forall (λ c, c ≠ LF) s → split_lines (s ++ [LF]) = [s ++ [LF]].
Proof.
  induction 1 as [|c s Hc _ IH]; [done|].
  simpl. apply N.eqb_neq in Hc. by rewrite Hc, IH.
Qed.

Lemma rstrip_clean (chars s : pystr) :
  Forall (λ c, c ∉ chars) s → rstrip chars s = s.
Proof.
  induction 1 as [|c s Hc _ IH]; [done|].
  simpl. rewrite IH. destruct s; [|done].
  destruct (existsb (N.eqb c) chars) eqn:He; [|done].
  apply existsb_exists in He as (d & Hd & ->%N.eqb_eq).
  by apply list_elem_of_In in Hd.
Qed.

Lemma rstrip_snoc (chars s : pystr) (x : pychar) :
  x ∈ chars → rstrip chars (s ++ [x]) = rstrip chars s.
Proof.
  intros Hx. induction s as [|c s IH].
  - simpl. destruct (existsb (N.eqb x) chars) eqn:He; [done|].
    apply not_true_iff_false in He. destruct He.
    apply existsb_exists. exists x. split; [by apply list_elem_of_In|].
    apply N.eqb_refl.
  - simpl. by rewrite IH.
Qed.

Lemma rstrip_line (s : pystr) :
  Forall (λ c, c ∉ [LF; CR]) s → rstrip [LF; CR] (s ++ [LF]) = s.
Proof.
  intros Hs. rewrite rstrip_snoc by set_solver. by apply rstrip_clean.
Qed.

Lemma Forall_plain (s : pystr) :
  Forall plain s →
  Forall (λ c, (c < 128)%N) s ∧ Forall (λ c, c ≠ CR) s ∧
  Forall (λ c, c ≠ LF) s ∧ Forall (λ c, c ∉ [LF; CR]) s.
Proof.
  intros H. repeat split; eapply Forall_impl; try exact H;
    intros c (? & ? & ?)%plain_spec; try done.
  rewrite !elem_of_cons, elem_of_nil. tauto.
Qed.

Lemma text_lines_append (data : list byte) (s : pystr) :
  terminated data → Forall plain s →
  text_lines (data ++ encode_line s) = text_lines data ++ [s ++ [LF]].
Proof.
  intros [Hst Hlf]%decode_terminated (Ha & Hcr & Hnl & _)%Forall_plain.
  unfold text_lines, utf8_decode_ignore, universal_newlines, encode_line.
  rewrite decode_from_app, Hst.
  assert (Forall (λ c, (c < 128)%N) (s ++ [LF])) as Ha'.
  { apply Forall_app. split; [done|]. by repeat constructor. }
  rewrite (proj1 (decode_ascii _ Ha')).
  rewrite translate_newlines_app, lf_terminated_pending by done.
  rewrite (translate_newlines_id (s ++ [LF])).
  2:{ apply Forall_app. split; [done|]. by repeat constructor. }
  rewrite split_lines_app by (by apply translate_newlines_terminated).
  by rewrite split_lines_one.
Qed.

Lemma file_lines_append (data : list byte) (s : pystr) :
  terminated data → Forall plain s →
  file_lines (data ++ encode_line s) = file_lines data ++ [s].
Proof.
  intros Ht Hs. unfold file_lines. rewrite text_lines_append by done.
  rewrite fmap_app. simpl. rewrite rstrip_line; [done|].
  by apply Forall_plain.
Qed.

Lemma terminated_encode_line (data : list byte) (s : pystr) :
  terminated (data ++ encode_line s).
Proof.
  unfold encode_line. rewrite fmap_app, app_assoc. apply terminated_snoc.
Qed.


Lemma file_lines_encode_lines (data : list byte) (lines : list pystr) :
  terminated data → Forall (Forall plain) lines →
  file_lines (data ++ encode_lines lines) = file_lines data ++ lines.
Proof.
  intros Ht Hl. revert data Ht.
  induction Hl as [|s lines Hs _ IH]; intros data Ht.
  - unfold encode_lines. simpl. by rewrite !app_nil_r.
  - unfold encode_lines. rewrite bind_cons, app_assoc.
    fold (encode_lines lines). rewrite IH by apply terminated_encode_line.
    rewrite file_lines_append by done. by rewrite <- app_assoc.
Qed.

Lemma utf8_encode_line (s : pystr) :
  Forall plain s → utf8_encode (s ++ [LF]) = Some (encode_line s).
Proof.
  intros (Ha & _)%Forall_plain. apply utf8_encode_ascii.
  apply Forall_app. split; [done|]. by repeat constructor.
Qed.

(** ** Loops and the candidate step *)

Lemma for_each_ind_from {S A : Type} (body : S → A → S * option exn)
    (I : list A → S → Prop) (E : exn → S → Prop) (acc xs : list A) (s : S) :
  I acc s →
  (∀ pre x suf s0, acc ++ xs = pre ++ x :: suf → I pre s0 →
     match body s0 x with
     | (s', None) => I (pre ++ [x]) s'
     | (s', Some e) => E e s'
     end) →
  match for_each body xs s with
  | (s', None) => I (acc ++ xs) s'
  | (s', Some e) => E e s'
  end.
Proof.
  revert acc s. induction xs as [|x xs IH]; intros acc s Hacc Hstep.
  - simpl. by rewrite app_nil_r.
  - simpl. pose proof (Hstep acc x xs s eq_refl Hacc) as Hx.
    destruct (body s x) as [s' [e|]]; [done|].
    replace (acc ++ x :: xs) with ((acc ++ [x]) ++ xs)
      by (by rewrite <- app_assoc).
    apply IH; [done|]. intros pre y suf s0 Heq. apply (Hstep pre y suf).
    by rewrite <- Heq, <- app_assoc.
Qed.

(** Loop invariant rule for [for_each]: [I] holds of the items done so
    far, [E] of the exception that ends the loop and the state it
    leaves. *)
Lemma for_each_ind_exn {S A : Type} (body : S → A → S * option exn)
    (I : list A → S → Prop) (E : exn → S → Prop) (xs : list A) (s : S) :
  I [] s →
  (∀ pre x suf s0, xs = pre ++ x :: suf → I pre s0 →
     match body s0 x with
     | (s', None) => I (pre ++ [x]) s'
     | (s', Some e) => E e s'
     end) →
  match for_each body xs s with
  | (s', None) => I xs s'
  | (s', Some e) => E e s'
  end.
Proof. intros. by apply (for_each_ind_from body I E [] xs s). Qed.

Lemma for_each_ind {S A : Type} (body : S → A → S * option exn)
    (I : list A → S → Prop) (E : S → Prop) (xs : list A) (s : S) :
  I [] s →
  (∀ pre x suf s0, xs = pre ++ x :: suf → I pre s0 →
     match body s0 x with
     | (s', None) => I (pre ++ [x]) s'
     | (s', Some _) => E s'
     end) →
  match for_each body xs s with
  | (s', None) => I xs s'
  | (s', Some _) => E s'
  end.
Proof. intros. by apply (for_each_ind_exn body I (λ _, E) xs s). Qed.

Lemma for_each_app {S A : Type} (body : S → A → S * option exn)
    (xs ys : list A) (s : S) :
  for_each body (xs ++ ys) s
  = match for_each body xs s with
    | (s', None) => for_each body ys s'
    | (s', Some e) => (s', Some e)
    end.
Proof.
  revert s. induction xs as [|x xs IH]; intros s; [done|].
  simpl. destruct (body s x) as [s' [e|]]; [done|]. apply IH.
Qed.

Lemma for_each_prefix_none {S A : Type} (body : S → A → S * option exn)
    (xs ys : list A) (s : S) :
  (for_each body (xs ++ ys) s).2 = None → (for_each body xs s).2 = None.
Proof.
  rewrite for_each_app. by destruct (for_each body xs s) as [s' [e|]].
Qed.

Lemma join_id (tup : list pychar) : join tup = tup.
Proof. unfold join. induction tup as [|c tup IH]; simpl; by f_equal. Qed.

Section CandidateStep.
Variable charset : pystr.
Variable args : Args.

(** The ways through one iteration of the candidate loop. *)
Lemma candidate_body_cases (L : Z) (st : State) (tup : list pychar)
    (P : State * option exn → Prop) :
  (sigint st = Some O → P (st, Some KeyboardInterrupt)) →
  (tup ∈ have st → P (count_failed L (count_attempt (tick st)), None)) →
  (tup ∉ have st → utf8_encode (tup ++ [LF]) = None →
     P (count_attempt (tick st), Some UnicodeEncodeError)) →
  (∀ data, tup ∉ have st → utf8_encode (tup ++ [LF]) = Some data →
     flush_every args = 0 →
     P (record_write L tup data (count_attempt (tick st)),
        Some ZeroDivisionError)) →
  (∀ data st3 st4, tup ∉ have st →
     utf8_encode (tup ++ [LF]) = Some data →
     flush_every args ≠ 0 →
     let st2 := record_write L tup data (count_attempt (tick st)) in
     st3 = st2 ∨ st3 = note_flush (fsync st2) →
     st4 = st3 ∨
       st4 = write_report (len charset) args (reset_report_count st3) →
     P (st4, None)) →
  P (candidate_body charset args L st tup).
Proof.
  intros Hint Hdup Henc Hzero Hnew. unfold candidate_body.
  rewrite join_id.
  destruct (sigint st) as [[|k]|] eqn:Hsig; [by apply Hint| |].
  all: change (have (count_attempt (tick st))) with (have st).
  all: case_bool_decide as Hin; [by apply Hdup|].
  all: destruct (utf8_encode (tup ++ [LF])) as [data|] eqn:Hdata;
    [|by apply Henc].
  all: destruct (Z.eqb_spec (flush_every args) 0) as [Hz|Hz];
    [by apply Hzero|].
  all: cbv zeta.
  all: set (st2 := record_write L tup data (count_attempt (tick st))).
  all: destruct (total_written st2 `mod` flush_every args =? 0);
    [set (st3 := note_flush (fsync st2))|set (st3 := st2)].
  all: destruct (report_every args <=? written_since_last_report st3).
  all: apply (Hnew data st3); subst st3; auto.
Qed.
End CandidateStep.

(** ** The candidates of one length *)

Lemma elem_of_all_strings (charset t : pystr) (L : Z) :
  t ∈ all_strings charset L ↔
  Forall (λ c, c ∈ charset) t ∧ length t = Z.to_nat L.
Proof.
  unfold all_strings. rewrite elem_of_product_rec.
  generalize (Z.to_nat L) as n. clear L. intros n. revert t.
  induction n as [|n IH]; intros t; simpl.
  - split.
    + intros ->%Forall2_nil_inv_r. by split.
    + intros [_ ->%nil_length_inv]. constructor.
  - split.
    + intros (c & t' & Hc & Ht & ->)%Forall2_cons_inv_r.
      apply IH in Ht as [Ht Hn]. split; [by constructor|]. simpl. by rewrite Hn.
    + intros [Ht Hn]. destruct t as [|c t']; [done|].
      apply Forall_cons in Ht as [Hc Ht]. constructor; [done|].
      apply IH. split; [done|]. simpl in Hn. lia.
Qed.

Lemma length_all_strings (charset : pystr) (L : Z) :
  0 ≤ L → len (all_strings charset L) = len charset ^ L.
Proof.
  intros HL. unfold all_strings, len.
  rewrite length_product_rec_replicate, Nat2Z.inj_pow. by rewrite Z2Nat.id.
Qed.

Lemma NoDup_all_strings (charset : pystr) (L : Z) :
  NoDup charset → NoDup (all_strings charset L).
Proof.
  intros Hc. apply NoDup_product_rec, Forall_replicate. done.
Qed.

Section Candidates.
Variable charset : pystr.
Variable rng : nat → list pychar → list pychar.
Variable args : Args.
Hypothesis rng_perm : ∀ k, rng k charset ≡ₚ charset.

Lemma draw_per_pos_perm (n k : nat) :
  Forall2 (≡ₚ) (draw_per_pos charset rng n k) (replicate n charset).
Proof.
  revert k. induction n as [|n IH]; intros k; simpl; constructor; auto.
Qed.

Lemma iter_product_perm (L : Z) (st : State) :
  iter_product charset rng args L st ≡ₚ all_strings charset L.
Proof.
  unfold iter_product, all_strings, product_repeat.
  destruct (shuffle args); rewrite product_eq_rec; [|done].
  apply product_rec_Permutation, draw_per_pos_perm.
Qed.

Lemma iter_product_elem (L : Z) (st : State) (t : list pychar) :
  t ∈ iter_product charset rng args L st →
  Forall (λ c, c ∈ charset) t ∧ length t = Z.to_nat L.
Proof. rewrite iter_product_perm. apply elem_of_all_strings. Qed.
End Candidates.

(** ** Conservation of the counters *)




Section Conservation.
Variable charset : pystr.
Variable rng : nat → list pychar → list pychar.
Variable args : Args.
Hypothesis charset_plain : Forall plain charset.
Hypothesis rng_perm : ∀ k, rng k charset ≡ₚ charset.

Lemma candidate_plain (L : Z) (st : State) (t : list pychar) :
  t ∈ iter_product charset rng args L st → Forall plain t.
Proof.
  intros [Ht _]%iter_product_elem; [|done].
  eapply Forall_impl; [exact Ht|]. intros c Hc.
  by eapply Forall_forall in charset_plain.
Qed.





End Conservation.

(** ** The scanner *)

Lemma scan_fold_spec (L : Z) (lines : list pystr) (acc : gset pystr)
    (s : pystr) :
  s ∈ fold_left (scan_line L) lines acc ↔
  s ∈ acc ∨ (s ∈ rstrip [LF; CR] <$> lines ∧ len s = L).
Proof.
  revert acc. induction lines as [|line lines IH]; intros acc; simpl.
  - rewrite elem_of_nil. tauto.
  - rewrite IH, elem_of_cons. unfold scan_line.
    destruct (Z.eqb_spec (len (rstrip [LF; CR] line)) L) as [Heq|Hne].
    + rewrite elem_of_union, elem_of_singleton. split.
      * intros [[->|?]|[? ?]]; auto.
      * intros [?|[[->|?] ?]]; auto.
    + split.
      * intros [?|[? ?]]; auto.
      * intros [?|[[->|?] ?]]; auto. done.
Qed.

Lemma scan_spec (data : list byte) (L : Z) (s : pystr) :
  s ∈ scan_existing_by_len (Some data) L ↔ s ∈ file_lines data ∧ len s = L.
Proof.
  unfold scan_existing_by_len. rewrite scan_fold_spec, elem_of_empty.
  unfold file_lines. tauto.
Qed.

Lemma scan_lines_of_len (data : list byte) (L : Z) :
  scan_existing_by_len (Some data) L = list_to_set (lines_of_len L data).
Proof.
  apply set_eq. intros s. rewrite scan_spec, elem_of_list_to_set.
  unfold lines_of_len. rewrite list_elem_of_filter. tauto.
Qed.



(** ** The output file through the candidate loop *)

Lemma len_app {A} (l k : list A) : len (l ++ k) = len l + len k.
Proof. unfold len. rewrite length_app. lia. Qed.

Lemma len_snoc {A} (l : list A) (x : A) : len (l ++ [x]) = len l + 1.
Proof. by rewrite len_app. Qed.

Lemma len_nonneg {A} (l : list A) : 0 ≤ len l.
Proof. unfold len. lia. Qed.

Lemma encode_lines_snoc (W : list pystr) (t : pystr) :
  encode_lines (W ++ [t]) = encode_lines W ++ encode_line t.
Proof. unfold encode_lines. by rewrite bind_app, bind_singleton. Qed.

Section FileInvariant.
Variable charset : pystr.
Variable rng : nat → list pychar → list pychar.
Variable args : Args.
Variable F0 : list byte.
Hypothesis charset_plain : Forall plain charset.
Hypothesis rng_perm : ∀ k, rng k charset ≡ₚ charset.
Hypothesis F0_terminated : terminated F0.

Lemma over_charset_plain (s : pystr) :
  Forall (λ c, c ∈ charset) s → Forall plain s.
Proof.
  intros Hs. eapply Forall_impl; [exact Hs|]. intros c Hc.
  by eapply Forall_forall in charset_plain.
Qed.

Lemma seen_snoc (W : list pystr) (t s : pystr) :
  seen F0 (W ++ [t]) s ↔ seen F0 W s ∨ s = t.
Proof.
  unfold seen. rewrite elem_of_app, list_elem_of_singleton. tauto.
Qed.

Lemma entry_with_snoc (W : list pystr) (L : Z) (p : PerLen)
    (pre cands : list pystr) (t : pystr) :
  len t ≠ L → entry_with charset F0 W L p pre cands →
  entry_with charset F0 (W ++ [t]) L p pre cands.
Proof.
  intros Hne [H1 H2 H3 H4 H5 H6 H7 H8 H9]. constructor; try done.
  - rewrite filter_app, filter_cons_False by done.
    by rewrite filter_nil, app_nil_r.
  - intros s Hs. apply seen_snoc. left. by apply H9.
Qed.

Lemma entry_ok_snoc (W : list pystr) (L : Z) (p : PerLen) (t : pystr) :
  len t ≠ L → entry_ok charset F0 W L p →
  entry_ok charset F0 (W ++ [t]) L p.
Proof.
  intros Hne (pre & cands & He). exists pre, cands.
  by apply entry_with_snoc.
Qed.

Section Step.
Variables (L : Z) (m0 : gmap Z PerLen) (cands pre suf : list pystr).
Variables (t : pystr) (W : list pystr) (st : State).
Hypothesis cands_split : cands = pre ++ t :: suf.
Hypothesis inner : Inner charset F0 L m0 cands pre W st.

Lemma step_candidate :
  Forall (λ c, c ∈ charset) t ∧ len t = L ∧ Forall plain t.
Proof.
  destruct inner as [_ _ _ _ (p & _ & He & _)].
  destruct He as [HL _ _ _ _ _ Hperm _ _].
  assert (t ∈ all_strings charset L) as Ht.
  { rewrite <- Hperm, cands_split, elem_of_app, elem_of_cons. auto. }
  apply elem_of_all_strings in Ht as [Ht Hlen].
  split; [done|]. split; [unfold len; lia|].
  by apply over_charset_plain.
Qed.

Lemma step_prefix : pre ++ [t] `prefix_of` cands.
Proof.
  exists suf. by rewrite cands_split, <- app_assoc.
Qed.

Lemma inner_failed :
  t ∈ have st →
  Inner charset F0 L m0 cands (pre ++ [t]) W
    (count_failed L (count_attempt (tick st))).
Proof.
  intros Hin. pose proof step_prefix as Hpre.
  destruct inner as [Hlk Hhave Hoth Hold (p & Hp & He & Hex)].
  constructor; simpl; try done.
  - destruct Hlk as [H1 H2 H3 H4 H5 H6 H7].
    constructor; simpl; try done.
    intros s Hs. destruct (H4 s Hs) as [? ?]. split; [done|].
    by rewrite lookup_alter_is_Some.
  - intros L' Hne. rewrite lookup_alter_ne by done. by apply Hoth.
  - exists (bump_failed p). rewrite lookup_alter_eq, Hp.
    split; [done|]. split; [|done].
    destruct He as [H1 H2 H3 H4 H5 H6 H7 H8 H9].
    constructor; simpl; try done; try lia.
    + rewrite len_snoc. lia.
    + intros s [Hs| ->%list_elem_of_singleton]%elem_of_app; [by apply H9|].
      by apply Hhave.
Qed.

Lemma inner_written :
  t ∉ have st →
  Inner charset F0 L m0 cands (pre ++ [t]) (W ++ [t])
    (record_write L t (encode_line t) (count_attempt (tick st))).
Proof.
  intros Hnin. pose proof step_prefix as Hpre.
  pose proof step_candidate as (Hover & Hlen & Hplain).
  destruct inner as [Hlk Hhave Hoth Hold (p & Hp & He & Hex)].
  assert (¬ seen F0 W t) as Hnew.
  { intros Hs. apply Hnin, Hhave. by split. }
  constructor; simpl.
  - destruct Hlk as [H1 H2 H3 H4 H5 H6 H7].
    constructor; simpl.
    + by rewrite encode_lines_snoc, !app_assoc, H1.
    + apply NoDup_app. split_and!; [done| |apply NoDup_singleton].
      intros s Hs ->%list_elem_of_singleton. apply Hnew. by right.
    + intros s [Hs| ->%list_elem_of_singleton]%elem_of_app; [by apply H3|].
      intros Hs. apply Hnew. by left.
    + intros s [Hs| ->%list_elem_of_singleton]%elem_of_app.
      * destruct (H4 s Hs) as [? ?]. split; [done|].
        by rewrite lookup_alter_is_Some.
      * split; [done|]. rewrite Hlen, lookup_alter_eq, Hp. by eexists.
    + rewrite len_snoc. lia.
    + lia.
    + right. lia.
  - intros s. rewrite elem_of_union, elem_of_singleton, seen_snoc, Hhave.
    split.
    + intros [->|[? ?]]; auto.
    + intros [[?| ->] ?]; auto.
  - intros L' Hne. rewrite lookup_alter_ne by done. by apply Hoth.
  - intros L' p' Hne Hp'. apply entry_ok_snoc; [congruence|].
    by apply (Hold L' p').
  - exists (bump_written p). rewrite lookup_alter_eq, Hp.
    split; [done|]. split.
    + destruct He as [H1 H2 H3 H4 H5 H6 H7 H8 H9].
      constructor;
        cbn [bump_written written existing failed possible];
        try done; try lia.
      * rewrite filter_app, filter_cons_True by done.
        rewrite filter_nil, len_snoc. lia.
      * rewrite len_snoc. lia.
      * intros s Hs. apply seen_snoc.
        apply elem_of_app in Hs as [Hs| ->%list_elem_of_singleton]; auto.
    + rewrite size_union by (by apply disjoint_singleton_l).
      rewrite size_singleton. cbn [bump_written existing]. lia.
Qed.
End Step.

Lemma inner_neutral (L : Z) (m0 : gmap Z PerLen) (cands pre W : list pystr)
    (st st' : State) :
  Inner charset F0 L m0 cands pre W st →
  disk st' ++ buffer st' = disk st ++ buffer st →
  total_written st' = total_written st →
  per_len_stats st' = per_len_stats st →
  have st' = have st →
  0 ≤ last_flush_written st' ≤ total_written st' →
  buffer st' = [] ∨ last_flush_written st' < total_written st' →
  Inner charset F0 L m0 cands pre W st'.
Proof.
  intros [[H1 H2 H3 H4 H5 H6 H7] Hhave Hoth Hold Hent] Hf Hw Hm Hh Hle Hfl.
  constructor; [constructor|..]; rewrite ?Hf, ?Hm, ?Hh; try done.
  by rewrite Hw.
Qed.

Lemma inner_candidate (L : Z) (m0 : gmap Z PerLen)
    (cands pre suf : list pystr) (t : pystr) (W : list pystr) (st : State) :
  cands = pre ++ t :: suf →
  Inner charset F0 L m0 cands pre W st →
  match candidate_body charset args L st t with
  | (st', None) => ∃ W', Inner charset F0 L m0 cands (pre ++ [t]) W' st'
  | (st', Some _) => ∃ pre' W', Inner charset F0 L m0 cands pre' W' st'
  end.
Proof.
  intros Hsplit Hin.
  pose proof (step_candidate L m0 cands pre suf t W st Hsplit Hin)
    as (Hover & Hlen & Hplain).
  apply candidate_body_cases.
  - intros _. by exists pre, W.
  - intros Hdup. exists W. by eapply inner_failed.
  - intros _ Henc. by rewrite utf8_encode_line in Henc.
  - intros data Hnew Henc _. rewrite utf8_encode_line in Henc by done.
    injection Henc as <-. exists (pre ++ [t]), (W ++ [t]).
    by eapply inner_written.
  - intros data st3 st4 Hnew Henc _ st2 Hst3 Hst4.
    rewrite utf8_encode_line in Henc by done. injection Henc as <-.
    exists (W ++ [t]).
    assert (Inner charset F0 L m0 cands (pre ++ [t]) (W ++ [t]) st2) as H2.
    { by eapply inner_written. }
    assert (Inner charset F0 L m0 cands (pre ++ [t]) (W ++ [t]) st3) as H3.
    { destruct Hst3 as [->| ->]; [done|].
      pose proof (lk_count _ _ _ _ (in_linked _ _ _ _ _ _ _ _ H2)) as Hc.
      pose proof (len_nonneg (W ++ [t])).
      eapply inner_neutral; [exact H2|simpl..]; try done.
      - by rewrite app_nil_r.
      - subst st2. simpl in *. lia.
      - by left. }
    destruct Hst4 as [->| ->]; [done|].
    destruct H3 as [[H31 H32 H33 H34 H35 H36 H37] ? ? ? ?].
    constructor; [constructor|..]; done.
Qed.
End FileInvariant.

(** ** The output file through the lengths *)

Lemma filter_none {A} (P : A → Prop) `{!∀ x, Decision (P x)} (l : list A) :
  (∀ x, x ∈ l → ¬ P x) → filter P l = [].
Proof.
  induction l as [|x l IH]; intros Hl; [done|].
  rewrite filter_cons_False by (apply Hl; left). apply IH.
  intros y Hy. apply Hl. by right.
Qed.

#[local] Arguments scan_existing_by_len : simpl never.

Section FileLengths.
Variable charset : pystr.
Variable rng : nat → list pychar → list pychar.
Variable args : Args.
Variable F0 : list byte.
Hypothesis charset_plain : Forall plain charset.
Hypothesis rng_perm : ∀ k, rng k charset ≡ₚ charset.
Hypothesis F0_terminated : terminated F0.

Lemma linked_plain (W : list pystr) (st : State) :
  Linked charset F0 W st → Forall (Forall plain) W.
Proof.
  intros Hlk. apply Forall_forall. intros s Hs.
  eapply over_charset_plain; [done|].
  by apply (lk_strings _ _ _ _ Hlk).
Qed.

Lemma linked_lines (W : list pystr) (st : State) :
  Linked charset F0 W st →
  file_lines (disk st ++ buffer st) = file_lines F0 ++ W.
Proof.
  intros Hlk. rewrite (lk_file _ _ _ _ Hlk).
  apply file_lines_encode_lines; [done|]. by eapply linked_plain.
Qed.

Lemma inner_sound (L : Z) (m0 : gmap Z PerLen) (cands pre W : list pystr)
    (st : State) :
  Inner charset F0 L m0 cands pre W st →
  Sound charset F0 W st ∧ dom (per_len_stats st) = {[L]} ∪ dom m0.
Proof.
  intros [Hlk Hhave Hoth Hold (p & Hp & He & Hex)]. split.
  - constructor; [done|]. intros L' p' Hp'.
    destruct (decide (L' = L)) as [->|Hne].
    + rewrite Hp in Hp'. injection Hp' as <-. by exists pre, cands.
    + rewrite Hoth in Hp' by done. by apply Hold.
  - apply set_eq. intros L'.
    rewrite elem_of_union, elem_of_singleton, !elem_of_dom.
    destruct (decide (L' = L)) as [->|Hne].
    + rewrite Hp. split; [by left|by eexists].
    + rewrite Hoth by done. tauto.
Qed.

Lemma start_inner (done : list Z) (W : list pystr) (st : State) (L : Z) :
  0 ≤ L → L ∉ done → Outer charset F0 done W st →
  Inner charset F0 L (per_len_stats st)
    (iter_product charset rng args L (start_length charset L st)) [] W
    (after_draws args L (start_length charset L st)).
Proof.
  intros HL Hfresh [[Hlk Hent] Hbuf Hdom Hcomp Hhave].
  assert (per_len_stats st !! L = None) as Hnone.
  { apply not_elem_of_dom. by rewrite Hdom, elem_of_list_to_set. }
  assert (∀ s, s ∈ W → len s ≠ L) as HnoL.
  { intros s Hs Heq. destruct (lk_strings _ _ _ _ Hlk s Hs) as [_ [p Hp]].
    rewrite Heq, Hnone in Hp. done. }
  assert (file_lines (disk st) = file_lines F0 ++ W) as Hlines.
  { rewrite <- (linked_lines W st Hlk), Hbuf. by rewrite app_nil_r. }
  assert (∀ s, s ∈ scan_existing_by_len (Some (disk st)) L ↔
               seen F0 W s ∧ len s = L) as Hscan.
  { intros s. by rewrite scan_spec, Hlines, elem_of_app. }
  assert (scan_existing_by_len (Some (disk st)) L
          = scan_existing_by_len (Some F0) L) as Hsame.
  { apply set_eq. intros s. rewrite Hscan, scan_spec. unfold seen. split.
    - intros [[?|Hs] Hlen]; [done|]. by destruct (HnoL s Hs).
    - intros [? ?]. split; [by left|done]. }
  destruct Hlk as [H1 H2 H3 H4 H5 H6 H7].
  pose proof (len_nonneg W) as HW.
  constructor; simpl.
  - constructor; simpl; try done; try lia; [|by left].
    intros s Hs. destruct (H4 s Hs) as [? ?]. split; [done|].
    rewrite lookup_insert_is_Some. right. split; [|done].
    intros Heq. by apply (HnoL s Hs).
  - done.
  - intros L' Hne. by rewrite lookup_insert_ne.
  - intros L' p _ Hp. by apply Hent.
  - eexists. rewrite lookup_insert_eq. split; [done|]. split; [|done].
    constructor; simpl; try done.
    + rewrite Hsame. lia.
    + by rewrite filter_none.
    + apply prefix_nil.
    + by apply iter_product_perm.
    + intros t Ht. by apply elem_of_nil in Ht.
Qed.

Lemma linked_finish (W : list pystr) (st : State) :
  Linked charset F0 W st →
  Linked charset F0 W (finish_length charset args st) ∧
  buffer (finish_length charset args st) = [].
Proof.
  intros [H1 H2 H3 H4 H5 H6 H7]. unfold finish_length.
  case_bool_decide as Hneq; simpl.
  - split; [|done]. constructor; simpl; try done.
    + by rewrite app_nil_r.
    + by left.
  - assert (buffer st = []) as Hb by (destruct H7; [done|lia]).
    split; [|done]. by constructor.
Qed.

Lemma finish_fields (st : State) :
  per_len_stats (finish_length charset args st) = per_len_stats st ∧
  have (finish_length charset args st) = have st.
Proof. unfold finish_length. by case_bool_decide. Qed.

Lemma outer_length_body (done : list Z) (W : list pystr) (st : State)
    (L : Z) :
  0 ≤ L → L ∉ done → Outer charset F0 done W st →
  match length_body charset rng args st L with
  | (st', None) => ∃ W', Outer charset F0 (done ++ [L]) W' st'
  | (st', Some _) =>
      ∃ W', Sound charset F0 W' st' ∧
            dom (per_len_stats st') = list_to_set (done ++ [L])
  end.
Proof.
  intros HL Hfresh Hout.
  pose proof (start_inner done W st L HL Hfresh Hout) as Hstart.
  assert (list_to_set (done ++ [L])
          = ({[L]} ∪ dom (per_len_stats st) : gset Z)) as Hdom.
  { rewrite (ou_dom _ _ _ _ _ Hout), list_to_set_app_L. simpl.
    by rewrite union_empty_r_L, (comm_L (∪)). }
  unfold length_body.
  set (st0 := start_length charset L st) in *.
  set (cands := iter_product charset rng args L st0) in *.
  set (m0 := per_len_stats st) in *.
  pose proof (for_each_ind (candidate_body charset args L)
    (λ pre s, ∃ W', Inner charset F0 L m0 cands pre W' s)
    (λ s, ∃ pre W', Inner charset F0 L m0 cands pre W' s)
    cands (after_draws args L st0)) as Hloop.
  destruct (for_each (candidate_body charset args L) cands
              (after_draws args L st0)) as [st' [e|]].
  - destruct Hloop as (pre & W' & Hin); [by exists W| |].
    { intros pre t suf s0 Hsplit [W0 H0].
      by eapply inner_candidate. }
    exists W'. rewrite Hdom. by eapply inner_sound.
  - destruct Hloop as (W' & Hin); [by exists W| |].
    { intros pre t suf s0 Hsplit [W0 H0].
      by eapply inner_candidate. }
    exists W'. destruct (inner_sound _ _ _ _ _ _ Hin) as [[Hlk Hent] Hd].
    destruct (linked_finish W' st' Hlk) as [Hlk' Hbuf'].
    destruct (finish_fields st') as [Hm Hh].
    destruct Hin as [_ Hhave Hoth Hold (p & Hp & He & Hex)].
    constructor.
    + constructor; [done|]. by rewrite Hm.
    + done.
    + by rewrite Hm, Hdom.
    + intros L' [HL'| ->%list_elem_of_singleton]%elem_of_app.
      * destruct (ou_complete _ _ _ _ _ Hout L' HL') as (p' & Hp' & Hc').
        exists p'. split; [|done]. rewrite Hm, Hoth; [done|].
        intros ->. done.
      * exists p. rewrite Hm. split; [done|].
        destruct He as [H1 H2 H3 H4 H5 H6 H7 H8 H9].
        rewrite H8, H2, <- (length_all_strings charset L HL).
        unfold len. by rewrite H7.
    + intros L'. rewrite last_snoc. intros [= <-]. by rewrite Hh.
Qed.
End FileLengths.

(** ** Whole runs *)

Lemma main_valid (charset : pystr) (rng : nat → list pychar → list pychar)
    (args : Args) (intr : option nat) (fs : FileSystem) :
  valid_bounds args →
  main charset rng args intr fs
  = let st := finally charset args (engine charset rng args intr fs).1 in
    mkResult
      match (engine charset rng args intr fs).2 with
      | None | Some KeyboardInterrupt => Returned
      | Some e => Uncaught e
      end
      [] (mkFS (Some (disk st)) (head (reports st))) (Some st).
Proof.
  intros [H1 H2]. unfold main, engine, lengths.
  destruct (Z.ltb_spec (min_len args) 1); [lia|].
  destruct (Z.ltb_spec (max_len args) (min_len args)); [lia|].
  simpl. by destruct (for_each _ _ _).
Qed.

Lemma lengths_spec (args : Args) (L : Z) :
  L ∈ lengths args ↔ min_len args ≤ L ≤ max_len args.
Proof. unfold lengths, range. rewrite elem_of_seqZ. lia. Qed.

Lemma lengths_nodup (args : Args) : NoDup (lengths args).
Proof. apply NoDup_seqZ. Qed.

Lemma lengths_pos (args : Args) :
  valid_bounds args → Forall (λ L, 0 ≤ L) (lengths args).
Proof.
  intros [H1 H2]. apply Forall_forall. intros L HL%lengths_spec. lia.
Qed.

Section Runs.
Variable charset : pystr.
Variable rng : nat → list pychar → list pychar.
Variable args : Args.
Hypothesis charset_plain : Forall plain charset.
Hypothesis rng_perm : ∀ k, rng k charset ≡ₚ charset.

Section NoException.
Hypothesis flush_ok : flush_every args ≠ 0.

Lemma candidate_no_exn (L : Z) (st : State) (t : list pychar) :
  Forall plain t → sigint st = None →
  (candidate_body charset args L st t).2 = None ∧
  sigint (candidate_body charset args L st t).1 = None.
Proof.
  intros Ht Hsig. apply candidate_body_cases; simpl.
  - by rewrite Hsig.
  - by rewrite Hsig.
  - intros _ Henc. by rewrite utf8_encode_line in Henc.
  - done.
  - intros data st3 st4 _ _ _ [->| ->] [->| ->]; simpl; by rewrite Hsig.
Qed.

Lemma length_no_exn (st : State) (L : Z) :
  sigint st = None →
  (length_body charset rng args st L).2 = None ∧
  sigint (length_body charset rng args st L).1 = None.
Proof.
  intros Hsig. unfold length_body.
  set (st0 := start_length charset L st).
  set (cands := iter_product charset rng args L st0).
  pose proof (for_each_ind (candidate_body charset args L)
    (λ _ s, sigint s = None) (λ _, False)
    cands (after_draws args L st0) Hsig) as Hloop.
  destruct (for_each (candidate_body charset args L) cands
              (after_draws args L st0)) as [st' [e|]].
  - destruct Hloop. intros pre t suf s0 Hsplit Hs0.
    assert (Forall plain t) as Ht.
    { apply (candidate_plain charset rng args charset_plain rng_perm
               L st0). fold cands. rewrite Hsplit, elem_of_app,
        elem_of_cons. auto. }
    destruct (candidate_no_exn L s0 t Ht Hs0) as [He Hs].
    destruct (candidate_body charset args L s0 t) as [s' [e'|]]; done.
  - simpl. split; [done|]. unfold finish_length.
    assert (sigint st' = None) as Hs'.
    { apply Hloop. intros pre t suf s0 Hsplit Hs0.
      assert (Forall plain t) as Ht.
      { apply (candidate_plain charset rng args charset_plain rng_perm
                 L st0). fold cands. rewrite Hsplit, elem_of_app,
          elem_of_cons. auto. }
      destruct (candidate_no_exn L s0 t Ht Hs0) as [He Hs].
      destruct (candidate_body charset args L s0 t) as [s' [e'|]]; done. }
    by case_bool_decide.
Qed.

Lemma lengths_no_exn (Ls : list Z) (st : State) :
  sigint st = None →
  (for_each (length_body charset rng args) Ls st).2 = None.
Proof.
  revert st. induction Ls as [|L Ls IH]; intros st Hsig; [done|].
  simpl. destruct (length_no_exn st L Hsig) as [He Hs].
  destruct (length_body charset rng args st L) as [st' [e|]]; [done|].
  by apply IH.
Qed.

Lemma engine_no_exn (fs : FileSystem) :
  (engine charset rng args None fs).2 = None.
Proof. by apply lengths_no_exn. Qed.
End NoException.

Section FromFile.
Variable fs : FileSystem.
#[local] Abbreviation F0 := (initial_file fs).
Hypothesis F0_terminated : terminated F0.

Lemma outer_initial (intr : option nat) :
  Outer charset F0 [] [] (initial_state intr fs).
Proof.
  constructor; simpl; try done.
  - constructor; [|done]. constructor; simpl;
      try done; try (by intros s Hs%elem_of_nil).
    all: try apply NoDup_nil_2; try (by left).
  - intros L HL. by apply elem_of_nil in HL.
Qed.

Lemma outer_lengths (Ls : list Z) (W0 : list pystr) (st : State) :
  NoDup Ls → Forall (λ L, 0 ≤ L) Ls → Outer charset F0 [] W0 st →
  match for_each (length_body charset rng args) Ls st with
  | (st', None) => ∃ W, Outer charset F0 Ls W st'
  | (st', Some _) =>
      ∃ W, Sound charset F0 W st' ∧
           dom (per_len_stats st') ⊆ list_to_set Ls
  end.
Proof.
  intros Hnd Hpos Hout.
  apply (for_each_ind (length_body charset rng args)
    (λ done s, ∃ W, Outer charset F0 done W s)
    (λ s, ∃ W, Sound charset F0 W s ∧
               dom (per_len_stats s) ⊆ list_to_set Ls)).
  { by exists W0. }
  intros done L suf s0 Hsplit [W Hs0].
  assert (0 ≤ L) as HL.
  { eapply Forall_forall in Hpos; [exact Hpos|].
    rewrite Hsplit, elem_of_app, elem_of_cons. auto. }
  assert (L ∉ done) as Hfresh.
  { rewrite Hsplit in Hnd. apply NoDup_app in Hnd as (_ & Hnd & _).
    intros Hin. apply (Hnd L Hin). left. }
  pose proof (outer_length_body charset rng args F0 charset_plain
    rng_perm F0_terminated done W s0 L HL Hfresh Hs0) as Hbody.
  destruct (length_body charset rng args s0 L) as [s' [e|]]; [|done].
  destruct Hbody as (W' & Hsound & Hdom). exists W'. split; [done|].
  rewrite Hdom, Hsplit. intros x. rewrite !elem_of_list_to_set.
  rewrite !elem_of_app, !elem_of_cons, elem_of_nil. tauto.
Qed.

Lemma sound_finally (W : list pystr) (st : State) :
  Sound charset F0 W st →
  Sound charset F0 W (finally charset args st) ∧
  disk (finally charset args st) = F0 ++ encode_lines W ∧
  buffer (finally charset args st) = [] ∧
  per_len_stats (finally charset args st) = per_len_stats st ∧
  have (finally charset args st) = have st.
Proof.
  intros [[H1 H2 H3 H4 H5 H6 H7] Hent]. split_and!; try done.
  constructor; [|done]. constructor; simpl; try done.
  - by rewrite app_nil_r.
  - by left.
Qed.


(** A run that goes through every length ends between two lengths. *)
Lemma engine_complete (intr : option nat) :
  valid_bounds args →
  (engine charset rng args intr fs).2 = None →
  ∃ W, Outer charset F0 (lengths args) W
         (engine charset rng args intr fs).1.
Proof.
  intros Hv. unfold engine.
  pose proof (outer_lengths (lengths args) [] (initial_state intr fs)
    (lengths_nodup args) (lengths_pos args Hv) (outer_initial intr)) as H.
  by destruct (for_each _ _ _) as [st' [e|]].
Qed.
End FromFile.
End Runs.

(** ** What a sound state says about the file *)

Lemma elem_of_candidates (charset : pystr) (Ls : list Z) (s : pystr) :
  Forall (λ L, 0 ≤ L) Ls →
  s ∈ Ls ≫= all_strings charset ↔ Forall (λ c, c ∈ charset) s ∧ len s ∈ Ls.
Proof.
  intros Hpos. rewrite list_elem_of_bind. split.
  - intros (L & [Hs Hlen]%elem_of_all_strings & HL).
    split; [done|]. eapply Forall_forall in Hpos; [|exact HL].
    replace (len s) with L; [done|]. unfold len. lia.
  - intros [Hs Hlen]. exists (len s). split; [|done].
    apply elem_of_all_strings. split; [done|]. unfold len. lia.
Qed.

Lemma NoDup_candidates (charset : pystr) (Ls : list Z) :
  Forall (λ L, 0 ≤ L) Ls → NoDup Ls → NoDup charset →
  NoDup (Ls ≫= all_strings charset).
Proof.
  intros Hpos HLs Hc. apply NoDup_bind; [| |done].
  - intros L1 L2 s HL1 HL2.
    intros [_ H1]%elem_of_all_strings [_ H2]%elem_of_all_strings.
    eapply Forall_forall in HL1; [|exact Hpos].
    eapply Forall_forall in HL2; [|exact Hpos]. simpl in *. lia.
  - intros L _. by apply NoDup_all_strings.
Qed.

Section Final.
Variable charset : pystr.
Variable F0 : list byte.
Variable Ls : list Z.
Hypothesis Ls_nonneg : Forall (λ L, 0 ≤ L) Ls.

(** A length whose counters add up to [possible] has all its strings in
    the file. *)
Lemma sound_covered (W : list pystr) (st : State) (L : Z) (p : PerLen) :
  Sound charset F0 W st → per_len_stats st !! L = Some p →
  written p + failed p = possible p →
  ∀ t, t ∈ all_strings charset L → seen F0 W t.
Proof.
  intros [_ Hent] Hp Hfull t Ht.
  destruct (Hent L p Hp) as (pre & cands & [H1 H2 H3 H4 H5 H6 H7 H8 H9]).
  assert (pre = cands) as ->.
  { apply prefix_length_eq; [done|].
    assert (len cands = len pre) as Hlen; [|unfold len in Hlen; lia].
    rewrite <- H8, Hfull, H2, <- (length_all_strings charset L H1).
    unfold len. by rewrite H7. }
  apply H9. by rewrite H7.
Qed.

Lemma sound_written_candidates (W : list pystr) (st : State) :
  Sound charset F0 W st →
  dom (per_len_stats st) ⊆ list_to_set Ls →
  ∀ s, s ∈ W → s ∈ Ls ≫= all_strings charset ∧ s ∉ file_lines F0.
Proof.
  intros [Hlk _] Hdom s Hs. split; [|by apply (lk_fresh _ _ _ _ Hlk)].
  destruct (lk_strings _ _ _ _ Hlk s Hs) as [Hover Hsome].
  apply elem_of_candidates; [done|]. split; [done|].
  apply elem_of_dom, Hdom in Hsome.
  by apply elem_of_list_to_set in Hsome.
Qed.

(** A run through every length writes exactly the candidates that the
    file lacked. *)
Lemma outer_written (W : list pystr) (st : State) :
  NoDup Ls → NoDup charset →
  Outer charset F0 Ls W st →
  W ≡ₚ filter (λ s, s ∉ file_lines F0) (Ls ≫= all_strings charset).
Proof.
  intros HLs Hnd Hout. destruct Hout as [Hsound Hbuf Hdom Hcomp _].
  apply NoDup_Permutation.
  - apply (lk_nodup _ _ _ _ (sd_linked _ _ _ _ Hsound)).
  - by apply NoDup_filter, NoDup_candidates.
  - intros s. rewrite list_elem_of_filter. split.
    + intros Hs.
      destruct (sound_written_candidates W st Hsound) with (s := s);
        [by rewrite Hdom|done|done].
    + intros [Hnew Hs].
      apply list_elem_of_bind in Hs as (L & Hs & HL).
      destruct (Hcomp L HL) as (p & Hp & Hfull).
      destruct (sound_covered W st L p Hsound Hp Hfull s Hs); done.
Qed.
End Final.

(** ** Runs of [main] *)

Lemma run_valid (charset : pystr) (rng : nat → list pychar → list pychar)
    (args : Args) (intr : option nat) (fs : FileSystem) (st : State) :
  run (main charset rng args intr fs) = Some st → valid_bounds args.
Proof.
  unfold main, valid_bounds.
  destruct (Z.ltb_spec (min_len args) 1); [done|].
  destruct (Z.ltb_spec (max_len args) (min_len args)); [done|]. lia.
Qed.

Section MainRuns.
Variable charset : pystr.
Variable rng : nat → list pychar → list pychar.
Variable args : Args.
Variable fs : FileSystem.
#[local] Abbreviation F0 := (initial_file fs).
Hypothesis charset_plain : Forall plain charset.
Hypothesis rng_perm : ∀ k, rng k charset ≡ₚ charset.
Hypothesis F0_terminated : terminated F0.


(** A run that nothing interrupts. *)
Lemma complete_run (intr : option nat) :
  valid_bounds args → uninterrupted charset rng args intr fs →
  status (main charset rng args intr fs) = Returned ∧
  ∃ W st,
    run (main charset rng args intr fs) = Some st ∧
    out_file (fs_after (main charset rng args intr fs)) = Some (disk st) ∧
    disk st = F0 ++ encode_lines W ∧
    Outer charset F0 (lengths args) W st.
Proof.
  intros Hv Hnone. unfold uninterrupted in Hnone.
  rewrite main_valid by done.
  cbv zeta. cbn [run fs_after out_file status].
  rewrite Hnone. split; [done|].
  destruct (engine_complete charset rng args charset_plain rng_perm fs
              F0_terminated intr Hv Hnone) as (W & Hout).
  destruct (sound_finally charset args fs W _ (ou_sound _ _ _ _ _ Hout))
    as (Hs & Hdisk & Hbuf & Hm & Hh).
  exists W. eexists. split_and!; try done.
  destruct Hout as [H1 H2 H3 H4 H5].
  constructor; rewrite ?Hm, ?Hh; done.
Qed.

(** The lines of the file after a run that nothing interrupts: those it
    had, and the candidates it lacked. *)
Lemma complete_run_lines (intr : option nat) :
  valid_bounds args → uninterrupted charset rng args intr fs →
  NoDup charset →
  out_lines (main charset rng args intr fs)
  ≡ₚ file_lines F0
     ++ filter (λ s, s ∉ file_lines F0) (all_candidates charset args).
Proof.
  intros Hv Hnone Hnd.
  destruct (complete_run intr Hv Hnone)
    as (_ & W & st & _ & Hout & Hdisk & Ho).
  unfold out_lines. rewrite Hout, Hdisk. simpl.
  rewrite file_lines_encode_lines; [|done|].
  - apply Permutation_app_head.
    by apply (outer_written charset F0 (lengths args) (lengths_pos args Hv)
                W st (lengths_nodup args) Hnd).
  - eapply linked_plain; [done|]. apply Ho.
Qed.

(** Without Ctrl+C and with a flush interval other than 0, nothing
    interrupts a run. *)
Lemma uninterrupted_run :
  flush_every args ≠ 0 → uninterrupted charset rng args None fs.
Proof. intros Hflush. by apply engine_no_exn. Qed.
End MainRuns.

(** * The claims *)

Lemma fmap_join (cands : list (list pychar)) : join <$> cands = cands.
Proof.
  rewrite <- (list_fmap_id cands) at 2. apply list_fmap_ext.
  intros _ t _. apply join_id.
Qed.

(** ** Validation *)

(** C8. When [min_len < 1] or [max_len < min_len], [main] prints the
    validation message to standard error and exits with status 1, which
    is not zero, before it touches a file: the output file and the report
    file are as they were, and no run took place. *)
Theorem validation_error_before_io
    (charset : pystr) (rng : nat → list pychar → list pychar) (args : Args)
    (intr : option nat) (fs : FileSystem) :
  min_len args < 1 ∨ max_len args < min_len args →
  let r := main charset rng args intr fs in
  status r = SystemExit 1 ∧ exit_code (status r) ≠ 0 ∧
  stderr r = [invalid_msg] ∧ fs_after r = fs ∧ run r = None.
Proof.
  intros Hbad. unfold main.
  assert ((min_len args <? 1) || (max_len args <? min_len args) = true)
    as ->; [|done].
  apply orb_true_iff. rewrite !Z.ltb_lt. done.
Qed.

(** Scenario D of the specification: bounds 5 and 2. *)
Lemma validation_error_before_io_witness :
  let fs := mkFS None None in
  let r := main CHARSET (λ _ l, l) (mkArgs 5 2 1000 false 2000) None fs in
  status r = SystemExit 1 ∧ exit_code (status r) ≠ 0 ∧
  stderr r = [invalid_msg] ∧ fs_after r = fs ∧ run r = None.
Proof.
  apply (validation_error_before_io CHARSET (λ _ l, l)
           (mkArgs 5 2 1000 false 2000) None (mkFS None None)).
  right. simpl. lia.
Defined.

(** ** The sequence generator *)

(** C6. In ordered mode the generator yields, for a character set
    without repeated symbols, exactly [C^L] strings; each has length [L]
    and is made of symbols of the set; none is repeated; every such string
    is among them; and the string at position [k] spells [k] in base [C]
    with [L] digits, most significant digit first, each digit being the
    index of a symbol in the set: the rightmost position advances
    fastest. *)
Theorem ordered_generator_odometer
    (charset : pystr) (rng : nat → list pychar → list pychar) (args : Args)
    (L : Z) (st : State) :
  NoDup charset → 0 ≤ L → shuffle args = false →
  let out := join <$> iter_product charset rng args L st in
  len out = len charset ^ L ∧
  (∀ s, s ∈ out ↔ Forall (λ c, c ∈ charset) s ∧ len s = L) ∧
  NoDup out ∧
  ∀ k s, out !! k = Some s →
    Forall2 (λ c d, charset !! d = Some c) s
      (digits (length charset) (Z.to_nat L) k).
Proof.
  intros Hnd HL Hord out. subst out. rewrite fmap_join.
  unfold iter_product, product_repeat. rewrite Hord, product_eq_rec.
  fold (all_strings charset L). split_and!.
  - by apply length_all_strings.
  - intros s. rewrite elem_of_all_strings. unfold len.
    split; intros [? ?]; (split; [done|lia]).
  - by apply NoDup_all_strings.
  - intros k s. apply product_rec_odometer.
Qed.

Lemma ordered_generator_odometer_witness :
  let out :=
    join <$> iter_product (str "ab") (λ _ l, l)
               (mkArgs 2 2 1000 false 2000) 2
               (initial_state None (mkFS None None)) in
  len out = len (str "ab") ^ 2 ∧
  (∀ s, s ∈ out ↔ Forall (λ c, c ∈ str "ab") s ∧ len s = 2) ∧
  NoDup out ∧
  ∀ k s, out !! k = Some s →
    Forall2 (λ c d, str "ab" !! d = Some c) s
      (digits (length (str "ab")) (Z.to_nat 2) k).
Proof.
  apply (ordered_generator_odometer (str "ab") (λ _ l, l)
           (mkArgs 2 2 1000 false 2000) 2
           (initial_state None (mkFS None None))).
  - apply (bool_decide_unpack (NoDup (str "ab"))). vm_compute. exact I.
  - lia.
  - reflexivity.
Defined.

(** The ordered candidates of length 2 over the symbols a and b. *)
Example ordered_generator_ab :
  join <$> iter_product (str "ab") (λ _ l, l) (mkArgs 2 2 1000 false 2000) 2
             (initial_state None (mkFS None None))
  = [str "aa"; str "ab"; str "ba"; str "bb"].
Proof. reflexivity. Qed.

(** C5. Whatever permutation of the character set is drawn for each of
    the [L] positions, the product over the permuted copies is a
    rearrangement of the ordered product: the same [C^L] distinct
    strings, each exactly once. The generator of the shuffled mode is such
    a product, so it yields the same strings as the ordered mode, and an
    uninterrupted run leaves the same lines in the output file, up to
    their order, with the shuffle option or without it (a run is
    uninterrupted when neither Ctrl+C nor an exception ends it). *)
Theorem shuffle_invariance (charset : pystr) (L : Z) :
  NoDup charset → 0 ≤ L →
  (∀ per_pos : list (list pychar),
     length per_pos = Z.to_nat L → Forall (λ chars, chars ≡ₚ charset) per_pos →
     let shuffled := join <$> product per_pos in
     let ordered := join <$> product_repeat charset (Z.to_nat L) in
     shuffled ≡ₚ ordered ∧ (∀ s, s ∈ shuffled ↔ s ∈ ordered) ∧
     NoDup shuffled ∧ len shuffled = len charset ^ L) ∧
  (∀ rng args st,
     (∀ k, rng k charset ≡ₚ charset) → shuffle args = true →
     ∃ per_pos,
       iter_product charset rng args L st = product per_pos ∧
       length per_pos = Z.to_nat L ∧
       Forall (λ chars, chars ≡ₚ charset) per_pos) ∧
  (∀ rng rng' args args' intr intr' fs,
     Forall plain charset → terminated (initial_file fs) →
     (∀ k, rng k charset ≡ₚ charset) → (∀ k, rng' k charset ≡ₚ charset) →
     valid_bounds args →
     min_len args' = min_len args → max_len args' = max_len args →
     shuffle args = true → shuffle args' = false →
     uninterrupted charset rng args intr fs →
     uninterrupted charset rng' args' intr' fs →
     out_lines (main charset rng args intr fs)
     ≡ₚ out_lines (main charset rng' args' intr' fs)).
Proof.
  intros Hnd HL. split_and!.
  - intros per_pos Hlen Hperm shuffled ordered. subst shuffled ordered.
    rewrite !fmap_join. unfold product_repeat. rewrite !product_eq_rec.
    assert (product_rec per_pos
            ≡ₚ product_rec (replicate (Z.to_nat L) charset)) as Heq.
    { apply product_rec_Permutation. rewrite <- Hlen. clear Hlen.
      induction Hperm; simpl; constructor; auto. }
    split_and!.
    + done.
    + intros s. by rewrite Heq.
    + rewrite Heq. by apply (NoDup_all_strings charset L).
    + unfold len. rewrite Heq. by apply (length_all_strings charset L).
  - intros rng args st Hrng Hsh.
    exists (draw_per_pos charset rng (Z.to_nat L) (rng_draws st)).
    unfold iter_product. rewrite Hsh. split; [done|].
    generalize (rng_draws st). generalize (Z.to_nat L). intros n.
    induction n as [|n IH]; intros k; simpl; [by split|].
    destruct (IH (S k)) as [Hl Hf]. split; [by rewrite Hl|].
    constructor; [apply Hrng|done].
  - intros rng rng' args args' intr intr' fs Hplain Hterm Hrng Hrng' Hv
      Hmin Hmax _ _ Hun Hun'.
    assert (valid_bounds args') as Hv'.
    { unfold valid_bounds in *. by rewrite Hmin, Hmax. }
    rewrite (complete_run_lines charset rng args fs) by done.
    rewrite (complete_run_lines charset rng' args' fs) by done.
    unfold all_candidates, lengths. by rewrite Hmin, Hmax.
Qed.

Lemma shuffle_invariance_witness :
  let per_pos := [str "ba"; str "ab"] in
  let shuffled := join <$> product per_pos in
  let ordered := join <$> product_repeat (str "ab") (Z.to_nat 2) in
  shuffled ≡ₚ ordered ∧ (∀ s, s ∈ shuffled ↔ s ∈ ordered) ∧
  NoDup shuffled ∧ len shuffled = len (str "ab") ^ 2.
Proof.
  assert (NoDup (str "ab")) as Hnd.
  { apply (bool_decide_unpack (NoDup (str "ab"))). vm_compute. exact I. }
  assert (0 ≤ 2) as HL by lia.
  destruct (shuffle_invariance (str "ab") 2 Hnd HL) as (Hgen & _ & _).
  apply (Hgen [str "ba"; str "ab"]).
  - reflexivity.
  - constructor; [apply (Permutation_swap 97%N 98%N [])|].
    constructor; [reflexivity|constructor].
Defined.

(** The shuffled candidates of length 2 over the symbols a and b, when
    each draw reverses the character set. *)
Example shuffled_generator_ab :
  join <$> iter_product (str "ab") (λ _ l, reverse l)
             (mkArgs 2 2 1000 true 2000) 2
             (initial_state None (mkFS None None))
  = [str "bb"; str "ba"; str "ab"; str "aa"].
Proof. reflexivity. Qed.

(** ** The scanner *)





(** The same file scanned: both lines are found. *)
Example scan_skips_malformed :
  elements (scan_existing_by_len
    (Some (encode_lines [str "ab"] ++ xff :: encode_lines [str "cd"])) 2)
  ≡ₚ [str "ab"; str "cd"].
Proof.
  apply NoDup_Permutation.
  - apply NoDup_elements.
  - apply (bool_decide_unpack (NoDup [str "ab"; str "cd"])). vm_compute.
    exact I.
  - intros s. rewrite elem_of_elements, scan_spec.
    change (file_lines _) with [str "ab"; str "cd"].
    rewrite !elem_of_cons, elem_of_nil. unfold len.
    split; [tauto|]. intros [->|[->|[]]]; split; auto.
Qed.

(** ** The flush interval *)

Section FlushEvery.
Variable charset : pystr.
Variable rng : nat → list pychar → list pychar.
Variable args : Args.

#[local] Abbreviation flush_outcome := (flush_outcome args).
#[local] Abbreviation unwritten := (unwritten args).

Lemma flush_candidate (L : Z) (st : State) (t : list pychar) :
  unwritten st →
  match candidate_body charset args L st t with
  | (st', None) => unwritten st'
  | (st', Some e) => flush_outcome e st'
  end.
Proof.
  intros Hst. apply candidate_body_cases.
  - intros _. split; [done|]. intros Hz _. by apply Hst.
  - intros _. done.
  - intros _ _. split; [done|]. intros Hz _. by apply Hst.
  - intros data _ _ Hz. split; [done|]. done.
  - intros data st3 st4 _ _ Hnz _ _ _ Hz. done.
Qed.

Lemma flush_length_body (st : State) (L : Z) :
  unwritten st →
  match length_body charset rng args st L with
  | (st', None) => unwritten st'
  | (st', Some e) => flush_outcome e st'
  end.
Proof.
  intros Hst. unfold length_body.
  set (st0 := start_length charset L st).
  pose proof (for_each_ind_exn (candidate_body charset args L)
    (λ _, unwritten) flush_outcome
    (iter_product charset rng args L st0) (after_draws args L st0) Hst)
    as Hloop.
  destruct (for_each _ _ _) as [st' [e|]].
  - apply Hloop. intros pre t suf s0 _ Hs0. by apply flush_candidate.
  - intros Hz. unfold finish_length.
    assert (total_written st' = 0) as Hw.
    { apply Hloop; [|done]. intros pre t suf s0 _ Hs0.
      by apply flush_candidate. }
    by case_bool_decide.
Qed.

Lemma flush_engine (intr : option nat) (fs : FileSystem) :
  match engine charset rng args intr fs with
  | (st', None) => unwritten st'
  | (st', Some e) => flush_outcome e st'
  end.
Proof.
  unfold engine.
  apply (for_each_ind_exn (length_body charset rng args)
    (λ _, unwritten) flush_outcome).
  - done.
  - intros pre L suf s0 _ Hs0. by apply flush_length_body.
Qed.
End FlushEvery.

(** C10. In a run with [flush_every >= 1] the remainder
    [total_written % flush_every] is defined at every write: the run never
    ends with a division by zero. In a run with [flush_every = 0] that
    writes a new candidate, the remainder raises [ZeroDivisionError] at
    that first write: the run ends with the uncaught exception and a
    non-zero status, with exactly one line written. *)
Theorem flush_every_zero_aborts
    (charset : pystr) (rng : nat → list pychar → list pychar) (args : Args)
    (intr : option nat) (fs : FileSystem) (st : State) :
  run (main charset rng args intr fs) = Some st →
  (1 ≤ flush_every args →
   status (main charset rng args intr fs) ≠ Uncaught ZeroDivisionError) ∧
  (flush_every args = 0 → 0 < total_written st →
   status (main charset rng args intr fs) = Uncaught ZeroDivisionError ∧
   exit_code (status (main charset rng args intr fs)) ≠ 0).
Proof.
  intros Hrun. pose proof (run_valid _ _ _ _ _ _ Hrun) as Hv.
  rewrite main_valid in Hrun |- * by done.
  cbv zeta in *. cbn [run status] in *. injection Hrun as <-.
  pose proof (flush_engine charset rng args intr fs) as Hf.
  destruct (engine charset rng args intr fs) as [st' [e|]]; simpl in *.
  - destruct Hf as [Hnz Hz]. split.
    + intros Hge. assert (e ≠ ZeroDivisionError) by (apply Hnz; lia).
      by destruct e.
    + intros H0 Hw. destruct e; try done; rewrite Hz in Hw; done.
  - split; [done|]. intros H0 Hw. rewrite Hf in Hw; done.
Qed.

(** Interval 0, an absent output file, one length, two symbols. *)
Lemma flush_every_zero_aborts_witness :
  let r := main (str "ab") (λ _ l, l) (mkArgs 1 1 0 false 2000) None
             (mkFS None None) in
  status r = Uncaught ZeroDivisionError ∧ exit_code (status r) ≠ 0.
Proof.
  cbv zeta.
  destruct (run (main (str "ab") (λ _ l, l) (mkArgs 1 1 0 false 2000) None
                   (mkFS None None))) as [st|] eqn:Hrun;
    [|by vm_compute in Hrun].
  apply (flush_every_zero_aborts (str "ab") (λ _ l, l)
           (mkArgs 1 1 0 false 2000) None (mkFS None None) st Hrun).
  - reflexivity.
  - vm_compute in Hrun. injection Hrun as <-. reflexivity.
Defined.

(** The run of the witness: the line a is buffered when the exception
    is raised, and the [finally] block still flushes it. *)
Example flush_every_zero_run :
  let r := main (str "ab") (λ _ l, l) (mkArgs 1 1 0 false 2000) None
             (mkFS None None) in
  status r = Uncaught ZeroDivisionError ∧
  out_file (fs_after r) = Some (encode_lines [str "a"]) ∧
  (total_written <$> run r) = Some 1.
Proof. by vm_compute. Qed.

(** A negative interval raises nothing: the remainder is defined. *)
Example flush_every_negative_run :
  status (main (str "ab") (λ _ l, l) (mkArgs 1 1 (-1) false 2000) None
            (mkFS None None)) = Returned.
Proof. by vm_compute. Qed.

(** ** Conservation *)




(** The counters of that run. *)
Example conservation_run :
  let r := main (str "ab") (λ _ l, reverse l) (mkArgs 1 2 2 true 1)
             (Some 4%nat) (mkFS (Some (encode_lines [str "b"])) None) in
  ((λ st, (total_attempts st, total_written st, total_failed st)) <$> run r)
  = Some (4, 3, 1).
Proof. by vm_compute. Qed.

(** ** Writing and scanning again *)


Lemma CHARSET_NoDup : NoDup CHARSET.
Proof.
  apply (bool_decide_unpack (NoDup CHARSET)). vm_compute. exact I.
Qed.




(** The file that run leaves. *)
Example write_scan_roundtrip_run :
  out_lines (main CHARSET (λ _ l, l) (mkArgs 1 1 1000 false 2000)
               (Some 3%nat) (mkFS None None))
  = [str "A"; str "B"; str "C"].
Proof. by vm_compute. Qed.

(** ** Duplicates *)





(** The file that run leaves. *)
Example no_new_duplicates_run :
  out_lines (main (str "ab") (λ _ l, l) (mkArgs 2 2 1000 false 2000)
               (Some 3%nat)
               (mkFS (Some (encode_lines [str "ab"; str "b"])) None))
  = [str "ab"; str "b"; str "aa"; str "ba"].
Proof. by vm_compute. Qed.

(** ** Completeness *)

Lemma range_last (a b : Z) : a ≤ b → last (range a (b + 1)) = Some b.
Proof.
  intros Hab. unfold range.
  replace (b + 1 - a) with (Z.of_nat (S (Z.to_nat (b - a)))) by lia.
  rewrite seqZ_S, last_snoc. f_equal. lia.
Qed.

Lemma range_spec (a b L : Z) : L ∈ range a (b + 1) ↔ a ≤ L ≤ b.
Proof. unfold range. rewrite elem_of_seqZ. lia. Qed.

Lemma range_split (a b c : Z) :
  a ≤ b ≤ c → range a (c + 1) = range a (b + 1) ++ range (b + 1) (c + 1).
Proof.
  intros Habc. unfold range.
  replace (c + 1 - a) with ((b + 1 - a) + (c + 1 - (b + 1))) by lia.
  rewrite seqZ_app by lia. do 2 f_equal. lia.
Qed.

Section FromEmpty.
Variable charset : pystr.
Variable rng : nat → list pychar → list pychar.
Variable args : Args.
Variable fs : FileSystem.
Hypothesis charset_plain : Forall plain charset.
Hypothesis charset_nodup : NoDup charset.
Hypothesis rng_perm : ∀ k, rng k charset ≡ₚ charset.
Hypothesis empty_file : initial_file fs = [].

(** From an empty file, the lines written while the lengths [Ls] were
    gone through are the strings of those lengths. *)
Lemma outer_from_empty (Ls : list Z) (W : list pystr) (st : State) (L : Z) :
  Forall (λ L, 0 ≤ L) Ls → NoDup Ls → L ∈ Ls →
  Outer charset (initial_file fs) Ls W st →
  ∀ s, s ∈ W ∧ len s = L ↔ s ∈ all_strings charset L.
Proof.
  intros Hpos HLs HL Hout s.
  pose proof (outer_written charset (initial_file fs) Ls Hpos W st HLs
                charset_nodup Hout) as HW.
  rewrite HW, list_elem_of_filter, elem_of_candidates by done.
  rewrite empty_file, elem_of_all_strings.
  change (file_lines []) with (@nil (list N)).
  rewrite elem_of_nil. eapply Forall_forall in Hpos; [|exact HL].
  unfold len. split.
  - intros [(_ & Hs & _) Hlen]. split; [done|lia].
  - intros [Hs Hlen]. assert (Z.of_nat (length s) = L) as Heq by lia.
    rewrite Heq. tauto.
Qed.
End FromEmpty.

(** C1. A run that nothing interrupts (neither Ctrl+C nor an exception
    ends it), on an output file that is absent or empty, with a character
    set of distinct plain symbols and valid bounds, returns normally, and
    for every length [L] of the range: the lines of length [L] of the output file are
    the [C^L] strings of that length, each once; the existing-set when the
    run has gone through the lengths up to [L] is the set of those strings
    and has [C^L] members; and the entry of [L] records [C^L] existing,
    [C^L] written and none failed. With the symbols a and b and both
    bounds 2 the file has the lines aa, ab, ba, bb, and the counters are 4
    written, 0 failed, 4 attempts. *)
Theorem completeness :
  (∀ (charset : pystr) (rng : nat → list pychar → list pychar)
     (args : Args) (intr : option nat) (fs : FileSystem),
     Forall plain charset → NoDup charset →
     (∀ k, rng k charset ≡ₚ charset) →
     valid_bounds args → initial_file fs = [] →
     uninterrupted charset rng args intr fs →
     let r := main charset rng args intr fs in
     status r = Returned ∧
     ∀ L, min_len args ≤ L ≤ max_len args →
       filter (λ s, len s = L) (out_lines r) ≡ₚ all_strings charset L ∧
       len (filter (λ s, len s = L) (out_lines r)) = len charset ^ L ∧
       (let st :=
          (for_each (length_body charset rng args)
             (range (min_len args) (L + 1)) (initial_state intr fs)).1 in
        have st = list_to_set (all_strings charset L) ∧
        Z.of_nat (size (have st)) = len charset ^ L) ∧
       ∃ st p,
         run r = Some st ∧ per_len_stats st !! L = Some p ∧
         possible p = len charset ^ L ∧ existing p = len charset ^ L ∧
         written p = len charset ^ L ∧ failed p = 0) ∧
  (let r := main (str "ab") (λ _ l, l) (mkArgs 2 2 1000 false 2000) None
              (mkFS None None) in
   out_lines r = [str "aa"; str "ab"; str "ba"; str "bb"] ∧
   ((λ st, (total_written st, total_failed st, total_attempts st)) <$> run r)
   = Some (4, 0, 4)).
Proof.
  split; [|by vm_compute].
  intros charset rng args intr fs Hplain Hnd Hrng Hv Hempty Hun r. subst r.
  assert (terminated (initial_file fs)) as Hterm by (by rewrite Hempty).
  destruct (complete_run charset rng args fs Hplain Hrng Hterm intr Hv Hun)
    as (Hstatus & W & st & Hrun & Hout & Hdisk & Ho).
  split; [done|]. intros L HL.
  pose proof (lengths_pos args Hv) as Hpos.
  assert (0 ≤ L) as HL0 by (destruct Hv; lia).
  pose proof (proj2 (lengths_spec args L) HL) as HLin.
  pose proof (ou_sound _ _ _ _ _ Ho) as Hsound.
  pose proof (sd_linked _ _ _ _ Hsound) as Hlk.
  pose proof (linked_plain charset (initial_file fs) Hplain W st Hlk) as HW.
  assert (out_lines (main charset rng args intr fs) = W) as Hlines.
  { unfold out_lines. rewrite Hout, Hdisk. simpl.
    rewrite file_lines_encode_lines, Hempty by done. done. }
  assert (filter (λ s, len s = L) W ≡ₚ all_strings charset L) as Hperm.
  { apply NoDup_Permutation.
    - apply NoDup_filter, (lk_nodup _ _ _ _ Hlk).
    - by apply NoDup_all_strings.
    - intros s. rewrite list_elem_of_filter.
      rewrite <- (outer_from_empty charset fs Hnd Hempty (lengths args) W st L
                    Hpos (lengths_nodup args) HLin Ho s). tauto. }
  assert (len (filter (λ s, len s = L) W) = len charset ^ L) as Hcount.
  { rewrite <- (length_all_strings charset L HL0). unfold len.
    by rewrite Hperm. }
  rewrite Hlines. split_and!; try done.
  - (* the existing-set when the lengths up to L are done *)
    set (Ls := range (min_len args) (L + 1)).
    assert (Forall (λ L', 0 ≤ L') Ls) as HposL.
    { apply Forall_forall. intros L' HL'%range_spec. destruct Hv. lia. }
    assert (NoDup Ls) as HndL by apply NoDup_seqZ.
    pose proof (outer_lengths charset rng args Hplain Hrng fs Hterm Ls []
      (initial_state intr fs) HndL HposL
      (outer_initial charset fs intr)) as Hloop.
    assert ((for_each (length_body charset rng args) Ls
               (initial_state intr fs)).2 = None) as Hnone.
    { apply (for_each_prefix_none _ _ (range (L + 1) (max_len args + 1))).
      unfold Ls. rewrite <- range_split by lia. apply Hun. }
    destruct (for_each (length_body charset rng args) Ls
                (initial_state intr fs)) as [st' e].
    simpl in Hnone. subst e. destruct Hloop as [W' Ho']. cbn [fst].
    assert (L ∈ Ls) as HLs by (apply range_spec; lia).
    assert (have st' = list_to_set (all_strings charset L)) as Hhave.
    { apply set_eq. intros s. rewrite elem_of_list_to_set.
      rewrite (ou_have _ _ _ _ _ Ho' L) by (apply range_last; lia).
      rewrite <- (outer_from_empty charset fs Hnd Hempty Ls W' st' L
                    HposL HndL HLs Ho' s).
      unfold seen. rewrite Hempty.
      change (file_lines []) with (@nil (list N)).
      rewrite elem_of_nil. tauto. }
    split; [done|]. rewrite Hhave, size_list_to_set
      by (by apply NoDup_all_strings).
    by apply (length_all_strings charset L).
  - destruct (ou_complete _ _ _ _ _ Ho L HLin) as (p & Hp & Hfull).
    destruct (sd_entries _ _ _ _ Hsound L p Hp) as (pre & cands & He).
    pose proof (ew_possible _ _ _ _ _ _ _ He) as Hposs.
    pose proof (ew_existing _ _ _ _ _ _ _ He) as Hex.
    pose proof (ew_written _ _ _ _ _ _ _ He) as Hwr.
    rewrite Hempty in Hex.
    change (size (scan_existing_by_len (Some []) L)) with 0%nat in Hex.
    exists st, p. split_and!; try done; lia.
Qed.

(** The symbol x alone, lengths 1 to 3: scenario C of the specification. *)
Lemma completeness_witness :
  let r := main (str "x") (λ _ l, l) (mkArgs 1 3 1000 true 2000) None
             (mkFS None None) in
  status r = Returned ∧
  ∀ L, 1 ≤ L ≤ 3 →
    filter (λ s, len s = L) (out_lines r) ≡ₚ all_strings (str "x") L ∧
    len (filter (λ s, len s = L) (out_lines r)) = len (str "x") ^ L ∧
    (let st :=
       (for_each (length_body (str "x") (λ _ l, l)
                    (mkArgs 1 3 1000 true 2000))
          (range 1 (L + 1)) (initial_state None (mkFS None None))).1 in
     have st = list_to_set (all_strings (str "x") L) ∧
     Z.of_nat (size (have st)) = len (str "x") ^ L) ∧
    ∃ st p,
      run r = Some st ∧ per_len_stats st !! L = Some p ∧
      possible p = len (str "x") ^ L ∧ existing p = len (str "x") ^ L ∧
      written p = len (str "x") ^ L ∧ failed p = 0.
Proof.
  destruct completeness as [Hgen _].
  apply (Hgen (str "x") (λ _ l, l) (mkArgs 1 3 1000 true 2000) None
           (mkFS None None)).
  - apply (bool_decide_unpack (Forall plain (str "x"))). vm_compute. exact I.
  - apply (bool_decide_unpack (NoDup (str "x"))). vm_compute. exact I.
  - intros k. reflexivity.
  - unfold valid_bounds. simpl. lia.
  - reflexivity.
  - by vm_compute.
Defined.


(** ** Resuming *)


Section Resume.
Variable charset : pystr.
Variables rng1 rng2 : nat → list pychar → list pychar.
Variable args : Args.
Variables intr intr2 : option nat.
Variable fs : FileSystem.
Hypothesis charset_plain : Forall plain charset.
Hypothesis rng1_perm : ∀ k, rng1 k charset ≡ₚ charset.
Hypothesis rng2_perm : ∀ k, rng2 k charset ≡ₚ charset.
Hypothesis bounds : valid_bounds args.
Hypothesis file_terminated : terminated (initial_file fs).

#[local] Abbreviation F0 := (initial_file fs).
#[local] Abbreviation r1 := (main charset rng1 args intr fs).
#[local] Abbreviation r2 := (main charset rng2 args intr2 (fs_after r1)).

Hypothesis second_run : uninterrupted charset rng2 args intr2 (fs_after r1).

End Resume.



(** The files of the witness: after the first run, after the second, and
    after one uninterrupted run. *)
Example idempotent_resume_run :
  let args := mkArgs 1 2 2 true 1 in
  let fs := mkFS (Some (encode_lines [str "b"])) None in
  let r1 := main (str "ab") (λ _ l, reverse l) args (Some 3%nat) fs in
  let r2 := main (str "ab") (λ _ l, l) args None (fs_after r1) in
  let r := main (str "ab") (λ _ l, l) args None fs in
  out_lines r1 = [str "b"; str "a"; str "bb"] ∧
  out_lines r2
  = [str "b"; str "a"; str "bb"; str "aa"; str "ab"; str "ba"] ∧
  out_lines r
  = [str "b"; str "a"; str "aa"; str "ab"; str "ba"; str "bb"].
Proof. by vm_compute. Qed.

(** * Further properties *)

(** ** The scanner on other files *)

Lemma translate_newlines_no_cr (f : bool) (t : pystr) :
  Forall (λ c, c ≠ CR) (translate_newlines f t).
Proof.
  revert f. induction t as [|c r IH]; intros f; simpl; [constructor|].
  destruct (N.eqb_spec c CR) as [->|Hc].
  - constructor; [done|apply IH].
  - destruct ((c =? LF)%N && f); [apply IH|]. constructor; [done|apply IH].
Qed.

Lemma split_lines_body (t line : pystr) :
  line ∈ split_lines t →
  ∃ body, (line = body ++ [LF] ∨ line = body) ∧
          Forall (λ c, c ≠ LF) body ∧ ∀ c, c ∈ body → c ∈ t.
Proof.
  revert line. induction t as [|c r IH]; intros line; simpl.
  { by intros ?%elem_of_nil. }
  destruct (N.eqb_spec c LF) as [->|Hc].
  - intros [->|Hin]%elem_of_cons.
    + exists []. split_and!; [by left|constructor|].
      by intros ? ?%elem_of_nil.
    + destruct (IH line Hin) as (body & Hb & Hnl & Hsub).
      exists body. split_and!; [done|done|]. intros d Hd. right. by apply Hsub.
  - destruct (split_lines r) as [|l ls] eqn:Hs.
    + intros ->%list_elem_of_singleton. exists [c].
      split_and!; [by right|by repeat constructor|].
      intros d ->%list_elem_of_singleton. left.
    + intros [->|Hin]%elem_of_cons.
      * destruct (IH l) as (body & Hb & Hnl & Hsub); [left|].
        exists (c :: body). split_and!.
        -- destruct Hb as [->| ->]; [by left|by right].
        -- by constructor.
        -- intros d [->|Hd]%elem_of_cons; [left|]. right. by apply Hsub.
      * destruct (IH line) as (body & Hb & Hnl & Hsub); [by right|].
        exists body. split_and!; [done|done|].
        intros d Hd. right. by apply Hsub.
Qed.

Lemma rstrip_prefix (chars s : pystr) : rstrip chars s `prefix_of` s.
Proof.
  induction s as [|c s IH]; simpl; [done|].
  destruct (rstrip chars s) as [|d r] eqn:Hr.
  - destruct (existsb (N.eqb c) chars); [apply prefix_nil|].
    apply prefix_cons, prefix_nil.
  - by apply prefix_cons.
Qed.

Lemma file_line_clean (data : list byte) (s : pystr) :
  s ∈ file_lines data → Forall (λ c, c ≠ LF ∧ c ≠ CR) s.
Proof.
  unfold file_lines, text_lines, universal_newlines.
  intros (line & -> & Hline)%list_elem_of_fmap.
  apply split_lines_body in Hline as (body & Hb & Hnl & Hsub).
  pose proof (translate_newlines_no_cr false (utf8_decode_ignore data)) as Hcr.
  assert (rstrip [LF; CR] line `prefix_of` body) as [k Hk].
  { destruct Hb as [->| ->]; [|apply rstrip_prefix].
    rewrite rstrip_snoc; [apply rstrip_prefix|]. left. }
  apply Forall_forall. intros c Hc.
  assert (c ∈ body) as Hcb by (rewrite Hk, elem_of_app; by left).
  split.
  - eapply Forall_forall in Hnl; [exact Hnl|done].
  - eapply Forall_forall in Hcr; [exact Hcr|]. by apply Hsub.
Qed.

(** X1. Every string the scanner returns has the target length and
    contains neither a newline nor a carriage return, whatever the bytes
    of the file; for a negative target length the result is empty. *)
Theorem scanned_strings_clean (data : list byte) (L : Z) :
  (∀ s, s ∈ scan_existing_by_len (Some data) L →
        len s = L ∧ Forall (λ c, c ≠ LF ∧ c ≠ CR) s) ∧
  (L < 0 → scan_existing_by_len (Some data) L = ∅).
Proof.
  split.
  - intros s [Hs Hlen]%scan_spec. split; [done|]. by eapply file_line_clean.
  - intros HL. apply set_eq. intros s. rewrite scan_spec, elem_of_empty.
    unfold len. split; [lia|done].
Qed.

Lemma scanned_strings_clean_witness :
  scan_existing_by_len (Some (encode_lines [str "ab"; str "c"])) (-1) = ∅.
Proof.
  apply (scanned_strings_clean (encode_lines [str "ab"; str "c"]) (-1)).
  reflexivity.
Defined.

Lemma decode_ascii_text (t : pystr) :
  Forall (λ c, (c < 128)%N) t → utf8_decode_ignore (mk_byte <$> t) = t.
Proof. intros Ht. by apply decode_ascii. Qed.

Lemma translate_newlines_plain (f : bool) (s u : pystr) :
  Forall plain s → s ≠ [] →
  translate_newlines f (s ++ u) = s ++ translate_newlines false u.
Proof.
  intros Hs. revert f. induction Hs as [|c s Hc Hs IH]; intros f Hne; [done|].
  apply plain_spec in Hc as (_ & Hlf & Hcr).
  apply N.eqb_neq in Hlf, Hcr. simpl. rewrite Hcr, Hlf. simpl.
  destruct s as [|d s']; [done|]. by rewrite IH.
Qed.

Lemma translate_rows (f : bool) (rows : list (list N * ending)) :
  Forall (λ row, Forall plain row.1 ∧ row.1 ≠ []) rows →
  translate_newlines f (text_of_rows rows)
  = rows.*1 ≫= λ s, s ++ [LF].
Proof.
  intros Hrows. revert f.
  induction Hrows as [|[s e] rows [Hs Hne] _ IH]; intros f; [done|].
  unfold text_of_rows in *. rewrite fmap_cons, !bind_cons. simpl in *.
  rewrite <- !app_assoc, translate_newlines_plain by done.
  f_equal. destruct e; simpl.
  - by rewrite IH.
  - by rewrite IH.
  - by rewrite IH.
Qed.

Lemma rows_ascii (rows : list (list N * ending)) :
  Forall (λ row, Forall plain row.1 ∧ row.1 ≠ []) rows →
  Forall (λ c, (c < 128)%N) (text_of_rows rows).
Proof.
  intros Hrows. unfold text_of_rows. apply Forall_bind.
  eapply Forall_impl; [exact Hrows|]. intros [s e] [Hs _]. simpl.
  apply Forall_app. split.
  - eapply Forall_impl; [exact Hs|]. by intros c (? & _)%plain_spec.
  - destruct e; by repeat constructor.
Qed.

Lemma encode_lines_rows (W : list pystr) :
  encode_lines W = encode_rows ((λ s, (s, EndLF)) <$> W).
Proof.
  unfold encode_lines, encode_rows, text_of_rows, encode_line.
  induction W as [|s W IH]; [done|].
  rewrite fmap_cons, !bind_cons, (fmap_app mk_byte (_ ++ _)), IH. done.
Qed.

(** X2. A file whose lines are non-empty strings of plain characters,
    each ended by LF, by CR LF or by a lone CR, is read as those strings:
    the scanner returns, for every length, what it returns for the same
    lines ended by LF, as the engine writes them. *)
Theorem line_endings_equivalent (rows : list (list N * ending)) :
  Forall (λ row, Forall plain row.1 ∧ row.1 ≠ []) rows →
  file_lines (encode_rows rows) = rows.*1 ∧
  ∀ L, scan_existing_by_len (Some (encode_rows rows)) L
       = scan_existing_by_len (Some (encode_lines rows.*1)) L.
Proof.
  intros Hrows.
  assert (Forall (λ row : list N * ending, Forall plain row.1 ∧ row.1 ≠ [])
            ((λ s, (s, EndLF)) <$> rows.*1)) as Hrows'.
  { rewrite <- list_fmap_compose. apply Forall_fmap.
    eapply Forall_impl; [exact Hrows|]. by intros [s e]. }
  assert (text_lines (encode_rows rows)
          = text_lines (encode_lines rows.*1)) as Htext.
  { rewrite encode_lines_rows. unfold text_lines, encode_rows.
    rewrite !decode_ascii_text by (by apply rows_ascii).
    unfold universal_newlines. rewrite !translate_rows by done.
    do 2 f_equal. rewrite <- list_fmap_compose. symmetry. apply list_fmap_id. }
  assert (file_lines (encode_lines rows.*1) = rows.*1) as Hlines.
  { rewrite <- (app_nil_l (encode_lines _)).
    rewrite file_lines_encode_lines; [done|done|].
    apply Forall_fmap. eapply Forall_impl; [exact Hrows|]. by intros [s e] [? _]. }
  split.
  - unfold file_lines in *. by rewrite Htext.
  - intros L. unfold scan_existing_by_len. by rewrite Htext.
Qed.

Lemma line_endings_equivalent_witness :
  file_lines (encode_rows [(str "ab", EndCRLF); (str "c", EndCR);
                           (str "de", EndLF)])
  = [str "ab"; str "c"; str "de"].
Proof.
  apply (line_endings_equivalent
           [(str "ab", EndCRLF); (str "c", EndCR); (str "de", EndLF)]).
  apply (bool_decide_unpack (Forall _ _)). vm_compute. exact I.
Defined.

Lemma split_lines_last (s : pystr) :
  Forall (λ c, c ≠ LF) s → s ≠ [] → split_lines s = [s].
Proof.
  induction 1 as [|c s Hc Hs IH]; intros Hne; [done|].
  simpl. apply N.eqb_neq in Hc. rewrite Hc.
  destruct s as [|d s']; [done|]. by rewrite IH.
Qed.

(** X3. A last line that lacks its newline is still read: after a file
    that is empty or ends with a newline, the bytes of a non-empty string
    of plain characters add that string as one more line, and the scanner
    for its length returns it. *)
Theorem last_line_without_newline (data : list byte) (s : pystr) :
  terminated data → Forall plain s → s ≠ [] →
  file_lines (data ++ (mk_byte <$> s)) = file_lines data ++ [s] ∧
  s ∈ scan_existing_by_len (Some (data ++ (mk_byte <$> s))) (len s).
Proof.
  intros [Hst Hlf]%decode_terminated Hs Hne.
  pose proof (Forall_plain s Hs) as (Ha & Hcr & Hnl & Hclean).
  assert (file_lines (data ++ (mk_byte <$> s)) = file_lines data ++ [s]) as H.
  { unfold file_lines, text_lines, utf8_decode_ignore, universal_newlines.
    rewrite decode_from_app, Hst, (proj1 (decode_ascii s Ha)).
    rewrite translate_newlines_app, lf_terminated_pending by done.
    rewrite (translate_newlines_id s) by done.
    rewrite split_lines_app by (by apply translate_newlines_terminated).
    rewrite (split_lines_last s Hnl Hne).
    rewrite fmap_app. simpl. by rewrite (rstrip_clean [LF; CR] s). }
  split; [done|]. apply scan_spec. split; [|done].
  rewrite H, elem_of_app, list_elem_of_singleton. by right.
Qed.

Lemma last_line_without_newline_witness :
  file_lines (encode_lines [str "ab"] ++ (mk_byte <$> str "cd"))
  = file_lines (encode_lines [str "ab"]) ++ [str "cd"].
Proof.
  apply (last_line_without_newline (encode_lines [str "ab"]) (str "cd")).
  - exact I.
  - apply (bool_decide_unpack (Forall plain (str "cd"))). vm_compute. exact I.
  - discriminate.
Defined.

(** ** The order of the lines *)



Section Ordered.
Variable charset : pystr.
Variable rng : nat → list pychar → list pychar.
Variable args : Args.
Variable F0 : list byte.
Hypothesis charset_plain : Forall plain charset.
Hypothesis charset_nodup : NoDup charset.
Hypothesis rng_perm : ∀ k, rng k charset ≡ₚ charset.
Hypothesis F0_terminated : terminated F0.

#[local] Abbreviation fresh := (λ s : list N, s ∉ file_lines F0).





End Ordered.





Section OrderedRuns.
Variable charset : pystr.
Variable rng : nat → list pychar → list pychar.
Variable args : Args.
Variable fs : FileSystem.
Hypothesis charset_plain : Forall plain charset.
Hypothesis charset_nodup : NoDup charset.
Hypothesis rng_perm : ∀ k, rng k charset ≡ₚ charset.
Hypothesis F0_terminated : terminated (initial_file fs).

#[local] Abbreviation F0 := (initial_file fs).
#[local] Abbreviation fresh := (λ s : list N, s ∉ file_lines F0).


End OrderedRuns.



(** The file of that run: the shuffled order starts b, a, bb, ba. *)
Example run_follows_visit_order_run :
  let r := main (str "ab") (λ _ l, reverse l) (mkArgs 1 2 2 true 1)
             (Some 4%nat) (mkFS (Some (encode_lines [str "b"])) None) in
  out_lines r = [str "b"; str "a"; str "bb"; str "ba"].
Proof. by vm_compute. Qed.



(** The counters of that run: six candidates, four new. *)
Example uninterrupted_run_counts_run :
  let r := main (str "ab") (λ _ l, reverse l) (mkArgs 1 2 2 true 1) None
             (mkFS (Some (encode_lines [str "b"; str "ab"])) None) in
  ((λ st, (total_attempts st, total_written st, total_failed st)) <$> run r)
  = Some (6, 4, 2).
Proof. by vm_compute. Qed.



(** The file of that run. *)
Example ordered_run_file_run :
  let r := main (str "ab") (λ _ l, l) (mkArgs 1 2 2 false 1) None
             (mkFS (Some (encode_lines [str "b"; str "ab"])) None) in
  out_lines r
  = [str "b"; str "ab"; str "a"; str "aa"; str "ba"; str "bb"].
Proof. by vm_compute. Qed.

(** ** Ctrl+C *)

Section Interrupt.
Variable charset : pystr.
Variable rng : nat → list pychar → list pychar.
Variable args : Args.
Variable k : nat.
Hypothesis charset_plain : Forall plain charset.
Hypothesis rng_perm : ∀ n, rng n charset ≡ₚ charset.
Hypothesis flush_ok : flush_every args ≠ 0.



End Interrupt.



(** The counters of that run, and those of a run that Ctrl+C reaches too
    late. *)
Example ctrl_c_stops_cleanly_run :
  let counters r :=
    (λ st, (total_attempts st, total_written st, total_failed st))
      <$> run r in
  counters (main (str "ab") (λ _ l, reverse l) (mkArgs 1 2 3 true 2)
              (Some 4%nat) (mkFS None None)) = Some (4, 4, 0) ∧
  counters (main (str "ab") (λ _ l, reverse l) (mkArgs 1 2 3 true 2)
              (Some 9%nat) (mkFS None None)) = Some (6, 6, 0).
Proof. by vm_compute. Qed.

(** ** The final report *)



(** The entries of that report: possible, existing, written, failed. *)
Example final_report_matches_file_run :
  let r := main (str "ab") (λ _ l, reverse l) (mkArgs 1 2 2 true 1)
             (Some 4%nat) (mkFS (Some (encode_lines [str "b"])) None) in
  ((λ rep, (λ e, (e.1, possible e.2, existing e.2, written e.2, failed e.2))
           <$> map_to_list (r_per_len rep)) <$> report_file (fs_after r))
  = Some [(2, 4, 2, 2, 0); (1, 2, 2, 1, 1)].
Proof. by vm_compute. Qed.

(** ** What is pending between two steps *)



Section Pending.
Variable charset : pystr.
Variable rng : nat → list pychar → list pychar.
Variable args : Args.








End Pending.



(** That state: eight lines written, the report file at seven, and two
    lines in the buffer. *)
Example little_is_pending_run :
  let charset := str "abc" in
  let args := mkArgs 1 2 3 false 4 in
  let st0 :=
    (for_each (length_body charset (λ _ l, l) args) [1]
       (initial_state None (mkFS None None))).1 in
  let st :=
    (for_each (candidate_body charset args 2)
       (take 5 (product_repeat charset 2))
       (after_draws args 2 (start_length charset 2 st0))).1 in
  (total_written st, reported st, written_since_last_report st, buffer st)
  = (8, 7, 1, encode_lines [str "ba"; str "bb"]).
Proof. by vm_compute. Qed.


(** ** UTF-8 beyond ASCII *)

Ltac euclid := zify; Z.to_euclidean_division_equations; lia.

Lemma land_shiftl_small (a k y : N) :
  (y < 2 ^ k)%N → N.land (N.shiftl a k) y = 0%N.
Proof.
  intros Hy. apply N.bits_inj. intros n. rewrite N.land_spec, N.bits_0.
  destruct (N.lt_ge_cases n k) as [Hn|Hn].
  - by rewrite N.shiftl_spec_low.
  - rewrite <- (N.mod_small y (2 ^ k)) by done.
    rewrite N.mod_pow2_bits_high by done. apply andb_false_r.
Qed.

Lemma lor_shiftl_small (a k y : N) :
  (y < 2 ^ k)%N → N.lor (N.shiftl a k) y = (a * 2 ^ k + y)%N.
Proof.
  intros Hy. pose proof (land_shiftl_small a k y Hy) as H0.
  rewrite <- N.lxor_lor, <- N.add_nocarry_lxor by done.
  by rewrite N.shiftl_mul_pow2.
Qed.

Lemma to_N_cont (x : N) :
  Byte.to_N (mk_byte (N.lor 0x80 (N.land x 0x3F))) = (128 + x mod 64)%N.
Proof.
  change 0x80%N with (N.shiftl 2 6). change 0x3F%N with (N.ones 6).
  rewrite N.land_ones. change (2 ^ 6)%N with 64%N.
  rewrite lor_shiftl_small by (change (2 ^ 6)%N with 64%N; euclid).
  change (2 ^ 6)%N with 64%N. change (N.shiftl 2 6) with 128%N.
  rewrite to_N_mk_byte; euclid.
Qed.

Lemma to_N_lead (tag k q : N) :
  (q < 2 ^ k)%N → (tag * 2 ^ k + q < 256)%N →
  Byte.to_N (mk_byte (N.lor (N.shiftl tag k) q)) = (tag * 2 ^ k + q)%N.
Proof.
  intros Hq Hb. rewrite lor_shiftl_small by done. by apply to_N_mk_byte.
Qed.

Lemma decode_from_cons (st : dstate) (b : byte) (rest : list byte) :
  decode_from st (b :: rest)
  = (decode_byte st (Byte.to_N b)).2
    ++ decode_from (decode_byte st (Byte.to_N b)).1 rest.
Proof. simpl. by destruct (decode_byte st (Byte.to_N b)). Qed.

Lemma decode_byte_cont (cp : N) (more : nat) (lo hi r : N) :
  (r < 64)%N → (lo ≤ 128 + r)%N → (128 + r ≤ hi)%N →
  decode_byte (Pending cp more lo hi) (128 + r)
  = match more with
    | O => (Idle, [(cp * 64 + r)%N])
    | S more' => (Pending (cp * 64 + r) more' 0x80 0xBF, [])
    end.
Proof.
  intros Hr Hlo Hhi. unfold decode_byte.
  rewrite (proj2 (N.leb_le _ _) Hlo), (proj2 (N.leb_le _ _) Hhi).
  cbn [andb]. change 0x3F%N with (N.ones 6).
  rewrite N.land_ones. change (2 ^ 6)%N with 64%N.
  replace ((128 + r) mod 64)%N with r by euclid.
  rewrite lor_shiftl_small by done. done.
Qed.

Lemma decode_start_lead2 (q : N) :
  (2 ≤ q < 32)%N → decode_start (192 + q) = (Pending q 0 0x80 0xBF, []).
Proof.
  intros Hq. unfold decode_start.
  destruct (N.ltb_spec (192 + q) 0x80); [lia|].
  destruct (N.leb_spec 0xC2 (192 + q)); [|lia].
  destruct (N.leb_spec (192 + q) 0xDF); [|lia].
  cbn [andb]. change 0x1F%N with (N.ones 5). rewrite N.land_ones.
  change (2 ^ 5)%N with 32%N. do 2 f_equal. euclid.
Qed.

Lemma decode_start_lead3 (q : N) :
  (q < 16)%N →
  decode_start (224 + q)
  = (Pending q 1 (if (q =? 0)%N then 0xA0 else 0x80)
       (if (q =? 13)%N then 0x9F else 0xBF), []).
Proof.
  intros Hq. unfold decode_start.
  destruct (N.ltb_spec (224 + q) 0x80); [lia|].
  destruct (N.leb_spec 0xC2 (224 + q)); [|lia].
  destruct (N.leb_spec (224 + q) 0xDF); [lia|].
  destruct (N.leb_spec 0xE0 (224 + q)); [|lia].
  destruct (N.leb_spec (224 + q) 0xEF); [|lia].
  cbn [andb]. change 0x0F%N with (N.ones 4). rewrite N.land_ones.
  change (2 ^ 4)%N with 16%N.
  replace ((224 + q) mod 16)%N with q by euclid.
  destruct (N.eqb_spec (224 + q) 0xE0), (N.eqb_spec q 0); try lia;
    destruct (N.eqb_spec (224 + q) 0xED), (N.eqb_spec q 13); try lia; done.
Qed.

Lemma decode_start_lead4 (q : N) :
  (q ≤ 4)%N →
  decode_start (240 + q)
  = (Pending q 2 (if (q =? 0)%N then 0x90 else 0x80)
       (if (q =? 4)%N then 0x8F else 0xBF), []).
Proof.
  intros Hq. unfold decode_start.
  destruct (N.ltb_spec (240 + q) 0x80); [lia|].
  destruct (N.leb_spec 0xC2 (240 + q)); [|lia].
  destruct (N.leb_spec (240 + q) 0xDF); [lia|].
  destruct (N.leb_spec 0xE0 (240 + q)); [|lia].
  destruct (N.leb_spec (240 + q) 0xEF); [lia|].
  destruct (N.leb_spec 0xF0 (240 + q)); [|lia].
  destruct (N.leb_spec (240 + q) 0xF4); [|lia].
  cbn [andb]. change 0x07%N with (N.ones 3). rewrite N.land_ones.
  change (2 ^ 3)%N with 8%N.
  replace ((240 + q) mod 8)%N with q by euclid.
  destruct (N.eqb_spec (240 + q) 0xF0), (N.eqb_spec q 0); try lia;
    destruct (N.eqb_spec (240 + q) 0xF4), (N.eqb_spec q 4); try lia; done.
Qed.

Lemma encodable_spec (c : pychar) :
  encodable c ↔ (c < 0x110000)%N ∧ ¬ (0xD800 ≤ c ≤ 0xDFFF)%N.
Proof.
  unfold encodable.
  destruct (N.ltb_spec c 0x110000), (N.leb_spec 0xD800 c),
    (N.leb_spec c 0xDFFF); simpl; split; try done; try lia.
  all: intros [? ?]; lia.
Qed.

Lemma utf8_encode_char_some (c : pychar) :
  is_Some (utf8_encode_char c) ↔ encodable c.
Proof.
  rewrite encodable_spec. unfold utf8_encode_char.
  destruct (N.ltb_spec c 0x80); [split; [lia|by eexists]|].
  destruct (N.ltb_spec c 0x800); [split; [lia|by eexists]|].
  destruct (N.leb_spec 0xD800 c), (N.leb_spec c 0xDFFF); cbn [andb].
  { split; [by intros [? ?]|lia]. }
  all: destruct (N.ltb_spec c 0x10000); [split; [lia|by eexists]|].
  all: destruct (N.ltb_spec c 0x110000); [split; [lia|by eexists]|].
  all: split; [by intros [? ?]|lia].
Qed.

Lemma decode_encode_char (c : pychar) (bs rest : list byte) :
  utf8_encode_char c = Some bs →
  decode_from Idle (bs ++ rest) = c :: decode_from Idle rest.
Proof.
  unfold utf8_encode_char.
  destruct (N.ltb_spec c 0x80) as [H1|H1].
  { intros [= <-]. cbn [app]. rewrite decode_from_cons, to_N_mk_byte by lia.
    by rewrite (decode_byte_ascii Idle c I H1). }
  destruct (N.ltb_spec c 0x800) as [H2|H2].
  { intros [= <-]. cbn [app]. rewrite !decode_from_cons.
    change 0xC0%N with (N.shiftl 6 5). rewrite N.shiftr_div_pow2.
    change (2 ^ 6)%N with 64%N.
    rewrite to_N_lead, to_N_cont by (change (2 ^ 5)%N with 32%N; euclid).
    change (6 * 2 ^ 5)%N with 192%N. cbn [decode_byte].
    rewrite decode_start_lead2 by euclid. cbn [fst snd app].
    rewrite decode_byte_cont by euclid. cbn [fst snd app].
    f_equal. euclid. }
  destruct (N.leb_spec 0xD800 c) as [H3|H3],
    (N.leb_spec c 0xDFFF) as [H4|H4]; cbn [andb]; [done|..].
  all: destruct (N.ltb_spec c 0x10000) as [H5|H5].
  all: try lia.
  all: try (destruct (N.ltb_spec c 0x110000) as [H6|H6]; [|done]).
  all: intros [= <-]; cbn [app]; rewrite !decode_from_cons.
  all: rewrite ?N.shiftr_div_pow2.
  all: change (2 ^ 6)%N with 64%N; change (2 ^ 12)%N with 4096%N;
    change (2 ^ 18)%N with 262144%N.
  all: first
    [ change 0xE0%N with (N.shiftl 14 4);
      rewrite to_N_lead, !to_N_cont by (change (2 ^ 4)%N with 16%N; euclid);
      change (14 * 2 ^ 4)%N with 224%N; cbn [decode_byte];
      rewrite decode_start_lead3 by euclid; cbn [fst snd app];
      rewrite decode_byte_cont
        by (try destruct (N.eqb_spec (c / 4096) 0);
            try destruct (N.eqb_spec (c / 4096) 13); euclid);
      cbn [fst snd app];
      rewrite decode_byte_cont by euclid; cbn [fst snd app];
      f_equal; euclid
    | change 0xF0%N with (N.shiftl 30 3);
      rewrite to_N_lead, !to_N_cont by (change (2 ^ 3)%N with 8%N; euclid);
      change (30 * 2 ^ 3)%N with 240%N; cbn [decode_byte];
      rewrite decode_start_lead4 by euclid; cbn [fst snd app];
      rewrite decode_byte_cont
        by (try destruct (N.eqb_spec (c / 262144) 0);
            try destruct (N.eqb_spec (c / 262144) 4); euclid);
      cbn [fst snd app];
      rewrite decode_byte_cont by euclid; cbn [fst snd app];
      rewrite decode_byte_cont by euclid; cbn [fst snd app];
      f_equal; euclid ].
Qed.

Lemma utf8_encode_some (s : pystr) :
  is_Some (utf8_encode s) ↔ Forall encodable s.
Proof.
  induction s as [|c s IH]; simpl.
  - split; [constructor|by eexists].
  - rewrite Forall_cons, <- IH, <- utf8_encode_char_some.
    destruct (utf8_encode_char c) as [bs|], (utf8_encode s) as [rest|];
      (split;
       [ intros [x Hx]; try done; split; by eexists
       | intros [[x Hx] [y Hy]]; try done; by eexists ]).
Qed.

Lemma decode_encode (s : pystr) (data rest : list byte) :
  utf8_encode s = Some data →
  decode_from Idle (data ++ rest) = s ++ decode_from Idle rest.
Proof.
  revert data. induction s as [|c s IH]; intros data; simpl.
  - by intros [= <-].
  - destruct (utf8_encode_char c) as [bs|] eqn:Hc; [|done].
    destruct (utf8_encode s) as [ds|]; [|done]. intros [= <-].
    rewrite <- app_assoc, (decode_encode_char c bs _ Hc). f_equal.
    by apply IH.
Qed.

Lemma text_of_lines_cons (s : pystr) (W : list pystr) :
  text_of_lines (s :: W) = (s ++ [LF]) ++ text_of_lines W.
Proof. done. Qed.

Lemma Forall_text_of_lines (P : pychar → Prop) (W : list pystr) :
  P LF → Forall (Forall P) W → Forall P (text_of_lines W).
Proof.
  intros HP. induction 1 as [|s W Hs _ IH]; [constructor|].
  rewrite text_of_lines_cons.
  apply Forall_app. split; [apply Forall_app; split|done]; [done|].
  by repeat constructor.
Qed.

Lemma split_text_of_lines (W : list pystr) :
  Forall (Forall (λ c, c ≠ LF)) W →
  split_lines (text_of_lines W) = (λ s, s ++ [LF]) <$> W.
Proof.
  induction 1 as [|s W Hs _ IH]; [done|].
  rewrite text_of_lines_cons, split_lines_app, split_lines_one, IH; [done..|].
  unfold lf_terminated. by rewrite last_snoc.
Qed.

Lemma file_lines_utf8 (old data : list byte) (W : list pystr) :
  terminated old →
  Forall (Forall (λ c, c ≠ LF ∧ c ≠ CR)) W →
  utf8_encode (text_of_lines W) = Some data →
  file_lines (old ++ data) = file_lines old ++ W.
Proof.
  intros [Hst Hlf]%decode_terminated HW Hdata.
  assert (Forall (λ c, c ≠ CR) (text_of_lines W)) as Hcr.
  { apply Forall_text_of_lines; [done|].
    eapply Forall_impl; [exact HW|]. intros s Hs.
    eapply Forall_impl; [exact Hs|]. by intros c [_ ?]. }
  assert (Forall (Forall (λ c, c ≠ LF)) W) as Hnl.
  { eapply Forall_impl; [exact HW|]. intros s Hs.
    eapply Forall_impl; [exact Hs|]. by intros c [? _]. }
  unfold file_lines, text_lines, utf8_decode_ignore, universal_newlines.
  rewrite decode_from_app, Hst.
  rewrite <- (app_nil_r data), (decode_encode _ _ [] Hdata). simpl.
  rewrite app_nil_r.
  rewrite translate_newlines_app, lf_terminated_pending by done.
  rewrite (translate_newlines_id (text_of_lines W)) by done.
  rewrite split_lines_app by (by apply translate_newlines_terminated).
  rewrite split_text_of_lines, fmap_app by done. f_equal.
  rewrite <- list_fmap_compose. clear Hdata Hcr Hnl.
  induction HW as [|s W Hs _ IH]; [done|].
  rewrite fmap_cons, IH. f_equal. simpl. apply rstrip_line.
  eapply Forall_impl; [exact Hs|]. intros c [? ?].
  rewrite !elem_of_cons, elem_of_nil. tauto.
Qed.

(** X10. Lines of any characters are read back as written, and lengths
    count characters, not bytes. For strings of code points that UTF-8
    can encode (below 0x110000 and no surrogate) without newline or
    carriage return, the text of the writes [f.write(s + LF)] can be
    encoded; appended to a file that is empty or ends with a newline,
    the bytes are read back as those strings after the lines the file
    had, and the scanner for a length [L] returns what it returned
    before together with the strings of [L] characters. *)
Theorem scan_reads_utf8 (old : list byte) (W : list pystr) :
  terminated old →
  Forall (Forall (λ c, encodable c ∧ c ≠ LF ∧ c ≠ CR)) W →
  ∃ data,
    utf8_encode (text_of_lines W) = Some data ∧
    file_lines (old ++ data) = file_lines old ++ W ∧
    ∀ L, scan_existing_by_len (Some (old ++ data)) L
         = scan_existing_by_len (Some old) L
           ∪ list_to_set (filter (λ s, len s = L) W).
Proof.
  intros Hold HW.
  assert (is_Some (utf8_encode (text_of_lines W))) as [data Hdata].
  { apply utf8_encode_some, Forall_text_of_lines; [done|].
    eapply Forall_impl; [exact HW|]. intros s Hs.
    eapply Forall_impl; [exact Hs|]. by intros c [? _]. }
  assert (file_lines (old ++ data) = file_lines old ++ W) as Hlines.
  { apply file_lines_utf8; [done| |done].
    eapply Forall_impl; [exact HW|]. intros s Hs.
    eapply Forall_impl; [exact Hs|]. by intros c (_ & ? & ?). }
  exists data. split_and!; [done..|]. intros L.
  rewrite !scan_lines_of_len. unfold lines_of_len.
  by rewrite Hlines, filter_app, list_to_set_app_L.
Qed.

(** After the line b: a line of one two-byte character, and a line of a
    three-byte and a four-byte character. *)
Lemma scan_reads_utf8_witness :
  let old := encode_lines [str "b"] in
  let W := [[233%N]; [8364%N; 128512%N]] in
  ∃ data,
    utf8_encode (text_of_lines W) = Some data ∧
    file_lines (old ++ data) = file_lines old ++ W ∧
    ∀ L, scan_existing_by_len (Some (old ++ data)) L
         = scan_existing_by_len (Some old) L
           ∪ list_to_set (filter (λ s, len s = L) W).
Proof.
  refine (scan_reads_utf8 (encode_lines [str "b"])
            [[233%N]; [8364%N; 128512%N]] I _).
  apply (bool_decide_unpack _). vm_compute. exact I.
Defined.

(** The bytes of those two lines, and the lines read back. *)
Example scan_reads_utf8_run :
  let W := [[233%N]; [8364%N; 128512%N]] in
  (λ data : list byte, Byte.to_N <$> data) <$> utf8_encode (text_of_lines W)
  = Some [195; 169; 10; 226; 130; 172; 240; 159; 152; 128; 10]%N ∧
  (λ data, file_lines (encode_lines [str "b"] ++ data))
    <$> utf8_encode (text_of_lines W)
  = Some [str "b"; [233%N]; [8364%N; 128512%N]].
Proof. by vm_compute. Qed.


(** ** Numbers as text *)




Lemma decimal_digits (n : N) : Forall is_digit (decimal n).
Proof.
  unfold decimal, DecimalString.NilZero.string_of_uint.
  assert (∀ d, Forall is_digit
                 (str (DecimalString.NilEmpty.string_of_uint d))) as Hd.
  { induction d; simpl; try constructor; try done; unfold is_digit;
      simpl; lia. }
  destruct (N.to_uint n); try apply Hd.
  repeat constructor; unfold is_digit; simpl; lia.
Qed.

Lemma digit_not_comma (c : pychar) : is_digit c → c ≠ COMMA.
Proof. unfold is_digit, COMMA. lia. Qed.

Lemma filter_group_rev (k : nat) (ds : pystr) :
  Forall (λ c, c ≠ COMMA) ds →
  filter (λ c, c ≠ COMMA) (group_rev k ds) = ds.
Proof.
  intros Hds. revert k. induction Hds as [|d ds Hd _ IH]; intros k; [done|].
  simpl. destruct (k =? 3)%nat.
  - rewrite filter_cons_False by (by intros ?).
    by rewrite filter_cons_True, IH.
  - by rewrite filter_cons_True, IH.
Qed.

Lemma filter_group3 (ds : pystr) :
  Forall (λ c, c ≠ COMMA) ds → filter (λ c, c ≠ COMMA) (group3 ds) = ds.
Proof.
  intros Hds. unfold group3.
  rewrite filter_reverse, filter_group_rev, reverse_involutive; [done|].
  by apply Forall_reverse.
Qed.

(** Commas stand at every fourth place, counted from the units. *)
Lemma group_rev_commas (k : nat) (ds : pystr) (i : nat) :
  Forall (λ c, c ≠ COMMA) ds → (k ≤ 3)%nat →
  (i < length (group_rev k ds))%nat →
  group_rev k ds !! i = Some COMMA ↔ Z.of_nat (i + k) `mod` 4 = 3.
Proof.
  intros Hds. revert k i.
  induction Hds as [|d ds Hd _ IH]; intros k i Hk Hi; [simpl in Hi; lia|].
  simpl in *. destruct (Nat.eqb_spec k 3) as [->|Hne].
  - destruct i as [|[|i]]; simpl in *.
    + done.
    + split; [by intros [= ?]|done].
    + rewrite IH by lia. euclid.
  - destruct i as [|i]; simpl in *.
    + split; [by intros [= ?]|euclid].
    + rewrite IH by lia. euclid.
Qed.

Lemma group_rev_last (k : nat) (ds : pystr) :
  Forall (λ c, c ≠ COMMA) ds → last (group_rev k ds) ≠ Some COMMA.
Proof.
  intros Hds. revert k. induction Hds as [|d ds Hd _ IH]; intros k; [done|].
  simpl. destruct (k =? 3)%nat.
  - rewrite !last_cons. specialize (IH 1%nat).
    destruct (last (group_rev 1 ds)); [done|]. by intros [= ?].
  - specialize (IH (S k)). rewrite last_cons.
    destruct (last (group_rev (S k) ds)); [done|]. by intros [= ?].
Qed.

(** *** The nearest double *)

Lemma round_half_even_bounds (num den : Z) :
  0 < den →
  num / den ≤ round_half_even num den ≤ num / den + 1 ∧
  2 * Z.abs (num - round_half_even num den * den) ≤ den.
Proof.
  intros Hden. unfold round_half_even.
  pose proof (Z.mod_pos_bound num den Hden) as Hr.
  pose proof (Z.div_mod num den ltac:(lia)) as Hdm.
  destruct (Z.ltb_spec den (2 * (num `mod` den))) as [H1|H1]; cbn [orb].
  - split; [lia|]. nia.
  - destruct (Z.eqb_spec (2 * (num `mod` den)) den) as [H2|H2]; cbn [andb].
    + destruct (Z.odd (num / den)); (split; [lia|nia]).
    + split; [lia|]. nia.
Qed.

Lemma float_of_int_small (n : Z) :
  Z.abs n ≤ 2 ^ 53 → float_of_int n = Some n.
Proof.
  intros Hn. unfold float_of_int.
  destruct (decide (Z.abs n = 2 ^ 53)) as [Heq|Hne].
  - rewrite Heq. destruct (Z.abs_spec n) as [[? Hn']|[? Hn']].
    + rewrite Hn' in Heq. by subst n.
    + replace n with (- 2 ^ 53) by lia. done.
  - destruct (decide (Z.abs n = 0)) as [H0|H0]; [by rewrite H0|].
    assert (Z.log2 (Z.abs n) < 53) as Hl.
    { apply Z.log2_lt_pow2; lia. }
    destruct (Z.leb_spec (Z.log2 (Z.abs n) + 1 - 53) 0); [done|lia].
Qed.



(** X11. [human] shows a count with thousands separators. For an [int]
    of magnitude up to [2 ** 53] the result is the decimal numeral, a
    minus sign first when negative, with commas inserted: taking the
    commas out gives [str(n)]. For a count that is not negative, the
    commas are exactly the characters at every fourth place counted from
    the last, and the first character is not a comma. *)
Theorem human_groups_thousands (n : Z) :
  Z.abs n ≤ 2 ^ 53 →
  human n
  = (if n <? 0 then str "-" else []) ++ group3 (decimal (Z.abs_N n)) ∧
  filter (λ c, c ≠ COMMA) (human n) = str_int n ∧
  (0 ≤ n →
   head (human n) ≠ Some COMMA ∧
   ∀ i : nat, (i < length (human n))%nat →
     reverse (human n) !! i = Some COMMA ↔ Z.of_nat i `mod` 4 = 3).
Proof.
  intros Hn. unfold human. rewrite float_of_int_small by done.
  unfold format_comma_0f, str_int.
  assert (Forall (λ c, c ≠ COMMA) (decimal (Z.abs_N n))) as Hd.
  { eapply Forall_impl; [apply decimal_digits|]. apply digit_not_comma. }
  split; [done|]. split.
  - rewrite filter_app, filter_group3 by done. f_equal.
    by destruct (n <? 0).
  - intros Hpos. destruct (Z.ltb_spec n 0); [lia|]. cbn [app].
    unfold group3. rewrite reverse_involutive, length_reverse. split.
    + rewrite <- last_reverse, reverse_involutive.
      apply group_rev_last. by apply Forall_reverse.
    + intros i Hi. rewrite group_rev_commas; [|by apply Forall_reverse|lia|done].
      by rewrite Nat.add_0_r.
Qed.

Lemma human_groups_thousands_witness :
  human 1234567 = [] ++ group3 (decimal (Z.abs_N 1234567)) ∧
  filter (λ c, c ≠ COMMA) (human 1234567) = str_int 1234567 ∧
  (0 ≤ 1234567 →
   head (human 1234567) ≠ Some COMMA ∧
   ∀ i : nat, (i < length (human 1234567))%nat →
     reverse (human 1234567) !! i = Some COMMA ↔ Z.of_nat i `mod` 4 = 3).
Proof. apply (human_groups_thousands 1234567). by vm_compute. Defined.

Example human_groups_thousands_run :
  human 1234567 = str "1,234,567" ∧ human 999 = str "999" ∧
  human 1000 = str "1,000" ∧ human 0 = str "0" ∧
  human (-1234) = str "-1,234".
Proof. by vm_compute. Qed.




Example human_rounds_large_counts_run :
  len CHARSET ^ 9 = 520411082988487293 ∧
  human (len CHARSET ^ 9) = str "520,411,082,988,487,296".
Proof. by vm_compute. Qed.

(** *** File sizes *)

Lemma size_loop_spec (fuel : nat) (num den : Z) (i : nat) :
  0 < den → den = 1024 ^ Z.of_nat i →
  ∃ j : nat,
    size_loop fuel num den i = (1024 ^ Z.of_nat j, j) ∧
    (i ≤ j ≤ i + fuel)%nat ∧
    ((i < j)%nat → 1024 ^ Z.of_nat j ≤ num) ∧
    ((j < i + fuel)%nat → num < 1024 * 1024 ^ Z.of_nat j).
Proof.
  revert den i. induction fuel as [|fuel IH]; intros den i Hden ->.
  - exists i. simpl. split_and!; [done|lia..].
  - simpl. destruct (Z.leb_spec (1024 * 1024 ^ Z.of_nat i) num) as [Hge|Hlt].
    + destruct (IH (1024 * 1024 ^ Z.of_nat i) (S i)) as (j & Hj & Hij & Hlo & Hhi).
      * lia.
      * rewrite Nat2Z.inj_succ, Z.pow_succ_r by lia. done.
      * exists j. rewrite Hj. split_and!; [done|lia|lia| |].
        -- intros _. destruct (decide (j = S i)) as [->|Hne].
           ++ rewrite Nat2Z.inj_succ, Z.pow_succ_r by lia. done.
           ++ apply Hlo. lia.
        -- intros Hlt. apply Hhi. lia.
    + exists i. split_and!; [done|lia|lia|lia|done].
Qed.

Lemma round_half_even_one (num : Z) : round_half_even num 1 = num.
Proof.
  unfold round_half_even. rewrite Z.mod_1_r, Z.div_1_r. done.
Qed.

(** X13. [file_size] of a missing file is the text 0 B. For a file of
    [sz] bytes, up to [2 ** 53], it is a number with two decimals and a
    unit: bytes below 1024; else the largest unit that [sz] reaches,
    terabytes at most. The number is the size in that unit rounded to
    the nearest hundredth; below terabytes it is at most 1024.00. *)
Theorem file_size_units (sz : Z) :
  0 ≤ sz ≤ 2 ^ 53 →
  file_size None = Some (str "0 B") ∧
  ∃ (i : nat) (h : Z) (unit : pystr),
    file_size (Some sz)
    = Some (decimal (Z.to_N (h / 100)) ++ str "."
            ++ decimal (Z.to_N (h `mod` 100 / 10))
            ++ decimal (Z.to_N (h `mod` 10)) ++ str " " ++ unit) ∧
    UNITS !! i = Some unit ∧
    (sz < 1024 → i = 0%nat ∧ h = 100 * sz) ∧
    (1024 ≤ sz → (1 ≤ i)%nat ∧ 1024 ^ Z.of_nat i ≤ sz) ∧
    ((i < 4)%nat → sz < 1024 ^ Z.of_nat (S i) ∧ h ≤ 102400) ∧
    0 ≤ h ∧
    2 * Z.abs (100 * sz - h * 1024 ^ Z.of_nat i) ≤ 1024 ^ Z.of_nat i.
Proof.
  intros Hsz. split; [done|]. unfold file_size.
  rewrite float_of_int_small by (rewrite Z.abs_eq; lia).
  destruct (size_loop_spec 4 sz 1 0 ltac:(lia) eq_refl)
    as (i & Hloop & Hi & Hlo & Hhi).
  rewrite Hloop.
  assert (0 < 1024 ^ Z.of_nat i) as Hden by (apply Z.pow_pos_nonneg; lia).
  set (den := 1024 ^ Z.of_nat i) in *.
  destruct (round_half_even_bounds (100 * sz) den Hden) as [[Hq1 Hq2] Hnear].
  assert (∃ unit, UNITS !! i = Some unit) as [unit Hunit].
  { destruct i as [|[|[|[|[|i]]]]]; try (by eexists). lia. }
  exists i, (round_half_even (100 * sz) den), unit.
  rewrite Hunit. unfold format_2f. cbn [default]. cbv zeta.
  split.
  { by rewrite <- !app_assoc. }
  split; [done|].
  assert (0 ≤ 100 * sz / den) as Hq0 by (apply Z.div_pos; lia).
  split_and!.
  - intros Hsmall. destruct (decide (i = 0%nat)) as [->|Hne].
    + split; [done|]. unfold den. simpl. apply round_half_even_one.
    + assert (den ≤ sz) by (apply Hlo; lia).
      assert (1024 ^ 1 ≤ den); [|lia].
      apply Z.pow_le_mono_r; lia.
  - intros Hbig. destruct (decide (i = 0%nat)) as [->|Hne].
    + assert (sz < 1024 * 1024 ^ Z.of_nat 0) by (apply Hhi; lia).
      simpl in *. lia.
    + split; [lia|]. apply Hlo. lia.
  - intros Hi4. assert (sz < 1024 * den) as Hlt by (apply Hhi; lia).
    split.
    + rewrite Nat2Z.inj_succ, Z.pow_succ_r by lia. done.
    + assert (100 * sz / den < 102400); [|lia].
      apply Z.div_lt_upper_bound; lia.
  - lia.
  - done.
Qed.

Lemma file_size_units_witness :
  file_size None = Some (str "0 B") ∧
  ∃ (i : nat) (h : Z) (unit : pystr),
    file_size (Some 1048575)
    = Some (decimal (Z.to_N (h / 100)) ++ str "."
            ++ decimal (Z.to_N (h `mod` 100 / 10))
            ++ decimal (Z.to_N (h `mod` 10)) ++ str " " ++ unit) ∧
    UNITS !! i = Some unit ∧
    (1048575 < 1024 → i = 0%nat ∧ h = 100 * 1048575) ∧
    (1024 ≤ 1048575 → (1 ≤ i)%nat ∧ 1024 ^ Z.of_nat i ≤ 1048575) ∧
    ((i < 4)%nat → 1048575 < 1024 ^ Z.of_nat (S i) ∧ h ≤ 102400) ∧
    0 ≤ h ∧
    2 * Z.abs (100 * 1048575 - h * 1024 ^ Z.of_nat i) ≤ 1024 ^ Z.of_nat i.
Proof. apply (file_size_units 1048575). by vm_compute. Defined.

(** A missing and an empty file differ; one byte short of a megabyte
    shows as 1024.00 KB; ties go to the even hundredth. *)
Example file_size_units_run :
  file_size None = Some (str "0 B") ∧
  file_size (Some 0) = Some (str "0.00 B") ∧
  file_size (Some 1023) = Some (str "1023.00 B") ∧
  file_size (Some 1024) = Some (str "1.00 KB") ∧
  file_size (Some 1048575) = Some (str "1024.00 KB") ∧
  file_size (Some 1048576) = Some (str "1.00 MB") ∧
  file_size (Some 1152) = Some (str "1.12 KB") ∧
  file_size (Some (2 ^ 50)) = Some (str "1024.00 TB").
Proof. by vm_compute. Qed.


(** ** The per-length table *)







(** The rows of that report: length, possible, existing, written,
    failed. *)
Example report_rows_add_up_run :
  let r := main (str "ab") (λ _ l, reverse l) (mkArgs 1 3 2 true 1)
             (Some 4%nat) (mkFS (Some (encode_lines [str "b"])) None) in
  ((λ rep, (λ row, (row.1, possible row.2, existing row.2, written row.2,
                    failed row.2)) <$> report_rows rep)
     <$> report_file (fs_after r))
  = Some [(1, 2, 2, 1, 1); (2, 4, 2, 2, 0); (3, 0, 0, 0, 0)].
Proof. by vm_compute. Qed.



(** The entry of that run: four possible, five existing. *)
Example existing_covers_possible_run :
  let r := main (str "ab") (λ _ l, l) (mkArgs 2 2 3 false 2) None
             (mkFS (Some (encode_lines [str "ab"; str "zz"])) None) in
  ((λ st, (λ p, (possible p, existing p, written p, failed p))
            <$> per_len_stats st !! 2) <$> run r)
  = Some (Some (4, 5, 3, 1)).
Proof. by vm_compute. Qed.
